(** * Capacity of a re-entrant cube: the notebook's pipeline and error estimator

    A shallow embedding of [notebooks/reentrant_cube_capacity.ipynb].

    The notebook is glue over the boundary element library: it wires the
    library's operators into a preconditioned linear system, recovers the
    capacity, and post-processes the solution into residual error indicators
    with numpy loops.  The embedding keeps that split:

    - numpy's arrays and the few numpy functions the notebook calls are
      written out ([Numpy]);
    - the library is an interface, a record of the entry points the notebook
      calls ([Bempp]); the notebook's cells are functions over any
      implementation of it ([Notebook]);
    - float64 is the interface [Scalar]: the definitions run on binary64
      ([float_scalar]) and are reasoned about over the reals ([R_scalar]),
      which is exact arithmetic: rounding, NaN and overflow are outside the
      statements proved over [R].

    A Python exception raised by the notebook's own code (IndexError,
    ValueError) is [None] in the option monad; a call into the library is
    taken to return.

    Three parts of the system live in the library and not in the notebook:
    the solver's stopping rule, the barycentric refinement and the rank-one
    regularization.  They are modelled from the specification, each in a
    module of its own ([Krylov], [Barycentric], [Regularization]). *)

From Stdlib Require Import PrimFloat.
From Stdlib Require Import Reals Lra Lia ZArith.
From stdpp Require Import base option list.

Local Open Scope R_scope.

(** ** float64 *)

(** The float64 operations the notebook performs, directly or through numpy. *)
Class Scalar (F : Type) := {
  f_zero : F;
  f_one : F;
  f_add : F → F → F;
  f_sub : F → F → F;
  f_mul : F → F → F;
  f_neg : F → F;
  f_sqrt : F → F;
(** [np.maximum] of two scalars *)
  f_maximum : F → F → F
}.

(** [x ** n] for a literal exponent [n]: repeated multiplication. *)
Fixpoint f_pow {F} `{Scalar F} (x : F) (n : nat) : F :=
  match n with
  | O => f_one
  | S k => f_mul x (f_pow x k)
  end.

#[export] Instance R_scalar : Scalar R := {|
  f_zero := 0;
  f_one := 1;
  f_add := Rplus;
  f_sub := Rminus;
  f_mul := Rmult;
  f_neg := Ropp;
  f_sqrt := sqrt;
  f_maximum := Rmax
|}.

(** binary64; [np.maximum] hands on a NaN operand. *)
Definition float_maximum (a b : float) : float :=
  if PrimFloat.is_nan a then a
  else if PrimFloat.is_nan b then b
  else if PrimFloat.ltb a b then b else a.

#[export] Instance float_scalar : Scalar float := {|
  f_zero := PrimFloat.zero;
  f_one := PrimFloat.one;
  f_add := PrimFloat.add;
  f_sub := PrimFloat.sub;
  f_mul := PrimFloat.mul;
  f_neg := PrimFloat.opp;
  f_sqrt := PrimFloat.sqrt;
  f_maximum := float_maximum
|}.

(** ** numpy *)

Module Numpy.
Section Numpy.
Context {F : Type} `{Scalar F}.

(** A one-dimensional array is a list; a two-dimensional array is the list
    of its rows, all of one length. *)
Definition shape0 {A} (a : list (list A)) : nat := length a.
Definition shape1 {A} (a : list (list A)) : nat :=
  match a with
  | [] => 0%nat
  | row :: _ => length row
  end.

(** [np.zeros(n, dtype='float64')] *)
Definition zeros (n : nat) : list F := replicate n f_zero.

(** [a[i]] for an index [i >= 0]: IndexError past the end. *)
Definition get {A} (a : list A) (i : nat) : option A := a !! i.

(** [a[i] = v] *)
Definition set {A} (a : list A) (i : nat) (v : A) : option (list A) :=
  if decide (i < length a)%nat then Some (<[i := v]> a) else None.

(** [a[i] += v] *)
Definition add_at (a : list F) (i : nat) (v : F) : option (list F) :=
  x ← get a i; set a i (f_add x v).

(** [a[m, n]] *)
Definition get2 {A} (a : list (list A)) (m n : nat) : option A :=
  row ← a !! m; row !! n.

(** [a[:, j]]: column [j], IndexError when the rows are shorter. *)
Definition column {A} (a : list (list A)) (j : nat) : option (list A) :=
  mapM (λ row : list A, row !! j) a.

(** [u - v] for two vectors of one length. *)
Definition vsub (u v : list F) : list F := zip_with f_sub u v.

(** [x.dot(x)] *)
Definition sqnorm (x : list F) : F :=
  foldl (λ s xi, f_add s (f_mul xi xi)) f_zero x.

(** [np.linalg.norm(x)] of a vector: [sqrt(x.dot(x))]. *)
Definition linalg_norm (x : list F) : F := f_sqrt (sqnorm x).

(** [np.max(xs)] of a sequence: [np.maximum.reduce], ValueError when it is
    empty. *)
Definition max (xs : list F) : option F :=
  match xs with
  | [] => None
  | x :: rest => Some (foldl f_maximum x rest)
  end.

(** [np.sqrt(a)], elementwise. *)
Definition sqrt (a : list F) : list F := f_sqrt <$> a.

(** [np.zeros_like(a)] *)
Definition zeros_like (a : list F) : list F := zeros (length a).

(** The position that an integer index [i] addresses in an array of length
    [n]: a negative index counts from the end, and an index outside
    [-n, n) is an IndexError. *)
Definition position (n : nat) (i : Z) : option nat :=
  if decide (0 ≤ i < Z.of_nat n)%Z then Some (Z.to_nat i)
  else if decide (- Z.of_nat n ≤ i < 0)%Z
       then Some (Z.to_nat (i + Z.of_nat n))
  else None.

(** [a[i] = v] for an integer index [i] *)
Definition set_item {A} (a : list A) (i : Z) (v : A) : option (list A) :=
  p ← position (length a) i; Some (<[p := v]> a).
End Numpy.
End Numpy.

(** ** The library

    The entry points of [bempp.api] the notebook calls, with the keyword
    arguments it passes fixed.  The types are the library's; a field is named
    after the attribute or function it stands for. *)

(** The callback of [GridFunction(space, fun=...)]: called with a point [x],
    the normal [n] there, the domain index and the result buffer [res], it
    writes the value into the buffer. *)
Definition Callback (F : Type) : Type :=
  list F → list F → Z → list F → option (list F).

Record Bempp (F : Type) := {
  Grid : Type;
  (** an element: an entity of codimension 0 *)
  Entity : Type;
  Space : Type;
  BoundaryOperator : Type;
  GridFunction : Type;
  (** [grid.leaf_view.entity_count(0)] *)
  entity_count : Grid → nat;
  (** [grid.leaf_view.entity_iterator(0)] *)
  entity_iterator : Grid → list Entity;
  (** [grid.leaf_view.index_set().entity_index(element)] *)
  entity_index : Grid → Entity → nat;
  (** [element.geometry.corners]: one row per coordinate, one column per
      corner *)
  corners : Entity → list (list F);
  (** [grid.barycentric_grid()] *)
  barycentric_grid : Grid → Grid;
  (** [grid.barycentric_descendents_map()] *)
  barycentric_descendents_map : Grid → list (list nat);
  (** [operators.boundary.laplace.single_layer_and_hypersingular_pair(
        grid, spaces='dual', return_base_slp=True)] *)
  single_layer_and_hypersingular_pair :
    Grid → BoundaryOperator * BoundaryOperator * BoundaryOperator;
  domain : BoundaryOperator → Space;
  range : BoundaryOperator → Space;
  dual_to_range : BoundaryOperator → Space;
  RankOneBoundaryOperator : Space → Space → Space → BoundaryOperator;
  (** [operators.boundary.sparse.identity(domain, range, dual_to_range)] *)
  identity : Space → Space → Space → BoundaryOperator;
  (** [a + b] and [a * b] on operators, [a * f] on an operator and a grid
      function *)
  op_add : BoundaryOperator → BoundaryOperator → BoundaryOperator;
  op_mul : BoundaryOperator → BoundaryOperator → BoundaryOperator;
  op_apply : BoundaryOperator → GridFunction → GridFunction;
  (** [GridFunction(space, fun=callback)] *)
  GridFunction_fun : Space → Callback F → GridFunction;
  space : GridFunction → Space;
  (** [f.integrate()], a two-dimensional array *)
  integrate : GridFunction → list (list F);
  (** [f.surface_grad_norm(element)] *)
  surface_grad_norm : GridFunction → Entity → F;
  (** [linalg.gmres(A, b, use_strong_form=True, return_iteration_count=True)]:
      the solution, the solver's [info] and the iteration count *)
  gmres : BoundaryOperator → GridFunction → GridFunction * Z * Z
}.

Arguments Grid {F} _.
Arguments Entity {F} _.
Arguments Space {F} _.
Arguments BoundaryOperator {F} _.
Arguments GridFunction {F} _.
Arguments entity_count {F} _ _.
Arguments entity_iterator {F} _ _.
Arguments entity_index {F} _ _ _.
Arguments corners {F} _ _.
Arguments barycentric_grid {F} _ _.
Arguments barycentric_descendents_map {F} _ _.
Arguments single_layer_and_hypersingular_pair {F} _ _.
Arguments domain {F} _ _.
Arguments range {F} _ _.
Arguments dual_to_range {F} _ _.
Arguments RankOneBoundaryOperator {F} _ _ _ _.
Arguments identity {F} _ _ _ _.
Arguments op_add {F} _ _ _.
Arguments op_mul {F} _ _ _.
Arguments op_apply {F} _ _ _.
Arguments GridFunction_fun {F} _ _ _.
Arguments space {F} _ _.
Arguments integrate {F} _ _.
Arguments surface_grad_norm {F} _ _ _.
Arguments gmres {F} _ _ _.

(** A [for] loop over [xs] whose body updates the state [s] and may raise. *)
Fixpoint for_each {A S : Type} (body : A → S → option S) (xs : list A) (s : S)
    : option S :=
  match xs with
  | [] => Some s
  | x :: rest => s' ← body x s; for_each body rest s'
  end.

(** ** The notebook *)

Section Notebook.
Context {F : Type} `{Scalar F} (api : Bempp F).

(** *** Cell 9: right-hand side and operators
<<
def one_fun(x, n, domain_index, res):
    res[0] = -1

slp, hyp, base_slp = \
    bempp.api.operators.boundary.laplace.single_layer_and_hypersingular_pair(
        grid, spaces='dual', return_base_slp=True)

rank_one_op = bempp.api.RankOneBoundaryOperator(
    hyp.domain, hyp.range, hyp.dual_to_range)
hyp_regularized = hyp + rank_one_op

rhs_fun = bempp.api.GridFunction(slp.range, fun=one_fun)

lhs = slp * hyp_regularized
>> *)
Definition one_fun : Callback F :=
  λ x n domain_index res, Numpy.set res 0 (f_neg f_one).

Record Cell9 := {
  slp : BoundaryOperator api;
  hyp : BoundaryOperator api;
  base_slp : BoundaryOperator api;
  rank_one_op : BoundaryOperator api;
  hyp_regularized : BoundaryOperator api;
  rhs_fun : GridFunction api;
  lhs : BoundaryOperator api
}.

Definition cell9 (grid : Grid api) : Cell9 :=
  let '(slp, hyp, base_slp) := single_layer_and_hypersingular_pair api grid in
  let rank_one_op :=
    RankOneBoundaryOperator api
      (domain api hyp) (range api hyp) (dual_to_range api hyp) in
  let hyp_regularized := op_add api hyp rank_one_op in
  let rhs_fun := GridFunction_fun api (range api slp) one_fun in
  let lhs := op_mul api slp hyp_regularized in
  {| slp := slp; hyp := hyp; base_slp := base_slp;
     rank_one_op := rank_one_op; hyp_regularized := hyp_regularized;
     rhs_fun := rhs_fun; lhs := lhs |}.

(** *** Cell 11: the solve and the capacity
<<
x, info, it_count = bempp.api.linalg.gmres(
    lhs, rhs_fun, use_strong_form=True,
    return_iteration_count=True)

sol_fun = hyp_regularized * x

print("Number of iterations: {0}".format(it_count))

print("The capacity is {0}.".format(-sol_fun.integrate()[0,0]))
>>
    [capacity] is the number the second [print] shows. *)
Record Cell11 := {
  x : GridFunction api;
  info : Z;
  it_count : Z;
  sol_fun : GridFunction api;
  capacity : F
}.

Definition cell11 (c9 : Cell9) : option Cell11 :=
  let '(x, info, it_count) := gmres api (lhs c9) (rhs_fun c9) in
  let sol_fun := op_apply api (hyp_regularized c9) x in
  integral ← Numpy.get2 (integrate api sol_fun) 0 0;
  Some {| x := x; info := info; it_count := it_count; sol_fun := sol_fun;
          capacity := f_neg integral |}.

(** *** Cell 13
<<
bary_map = grid.barycentric_descendents_map()
>> *)
Definition cell13 (grid : Grid api) : list (list nat) :=
  barycentric_descendents_map api grid.

(** *** Cell 15: the diameter of an element
<<
def diameter(element):
    corners = element.geometry.corners
    d0 = np.linalg.norm(corners[:,0] - corners[:,1])
    d1 = np.linalg.norm(corners[:,0] - corners[:, 2])
    d2 = np.linalg.norm(corners[:,1] - corners[:, 2])
    return np.max([d0, d1, d2])
>> *)
Definition diameter (element : Entity api) : option F :=
  let corners := corners api element in
  c0 ← Numpy.column corners 0;
  c1 ← Numpy.column corners 1;
  c2 ← Numpy.column corners 2;
  let d0 := Numpy.linalg_norm (Numpy.vsub c0 c1) in
  let d1 := Numpy.linalg_norm (Numpy.vsub c0 c2) in
  let d2 := Numpy.linalg_norm (Numpy.vsub c1 c2) in
  Numpy.max [d0; d1; d2].

(** *** Cell 17: the solution on the barycentric refinement
<<
map_to_base_space = bempp.api.operators.boundary.sparse.identity(
    sol_fun.space, base_slp.domain, base_slp.domain)
base_sol_fun = map_to_base_space * sol_fun

base_slp_times_sol = base_slp * base_sol_fun
>> *)
Definition map_to_base_space (c9 : Cell9) (sol_fun : GridFunction api)
    : BoundaryOperator api :=
  identity api (space api sol_fun)
    (domain api (base_slp c9)) (domain api (base_slp c9)).

Definition base_sol_fun (c9 : Cell9) (sol_fun : GridFunction api)
    : GridFunction api :=
  op_apply api (map_to_base_space c9 sol_fun) sol_fun.

Definition base_slp_times_sol (c9 : Cell9) (sol_fun : GridFunction api)
    : GridFunction api :=
  op_apply api (base_slp c9) (base_sol_fun c9 sol_fun).

(** *** Cell 19: the error estimator

    The first loop, over the elements of the barycentric refinement:
<<
for element in bary_grid.leaf_view.entity_iterator(0):
    index = bary_index_set.entity_index(element)
    gradient_norm = base_slp_times_sol.surface_grad_norm(element)
    local_error_squared = diameter(element) * gradient_norm**2
    local_errors_squared_bary[index] = local_error_squared
>> *)
Definition local_error_squared (base_slp_times_sol : GridFunction api)
    (element : Entity api) : option F :=
  let gradient_norm := surface_grad_norm api base_slp_times_sol element in
  d ← diameter element;
  Some (f_mul d (f_pow gradient_norm 2)).

Definition bary_loop (bary_grid : Grid api)
    (base_slp_times_sol : GridFunction api)
    (local_errors_squared_bary : list F) : option (list F) :=
  for_each
    (λ element local_errors_squared_bary,
       let index := entity_index api bary_grid element in
       local_error_squared ←
         local_error_squared base_slp_times_sol element;
       Numpy.set local_errors_squared_bary index local_error_squared)
    (entity_iterator api bary_grid) local_errors_squared_bary.

(** The second loop, over the original elements and their descendants:
<<
for m in range(bary_map.shape[0]):
    for n in range(bary_map.shape[1]):
        local_errors[m] += local_errors_squared_bary[bary_map[m, n]]
>> *)
Definition sum_loop (bary_map : list (list nat))
    (local_errors_squared_bary local_errors : list F) : option (list F) :=
  for_each
    (λ m local_errors,
       for_each
         (λ n local_errors,
            i ← Numpy.get2 bary_map m n;
            v ← Numpy.get local_errors_squared_bary i;
            Numpy.add_at local_errors m v)
         (seq 0 (Numpy.shape1 bary_map)) local_errors)
    (seq 0 (Numpy.shape0 bary_map)) local_errors.

(** The rest of the cell:
<<
local_errors = np.sqrt(local_errors)
total_error = np.linalg.norm(local_errors)

print("Total H^(-1/2) error estimate for normal derivative: {0}".format(
        np.linalg.norm(local_errors)))
print("Error estimate for capacity: {0}".format(total_error**2))
>>
    [printed_total_error] and [capacity_error] are the numbers the two
    [print]s show. *)
Record Cell19 := {
  local_errors_squared_bary : list F;
  local_errors : list F;
  total_error : F;
  printed_total_error : F;
  capacity_error : F
}.

Definition aggregate (bary_map : list (list nat)) (entity_count : nat)
    (local_errors_squared_bary : list F) : option Cell19 :=
  let local_errors := Numpy.zeros entity_count in
  local_errors ← sum_loop bary_map local_errors_squared_bary local_errors;
  let local_errors := Numpy.sqrt local_errors in
  let total_error := Numpy.linalg_norm local_errors in
  Some {| local_errors_squared_bary := local_errors_squared_bary;
          local_errors := local_errors;
          total_error := total_error;
          printed_total_error := Numpy.linalg_norm local_errors;
          capacity_error := f_pow total_error 2 |}.

Definition cell19 (grid : Grid api) (bary_map : list (list nat))
    (base_slp_times_sol : GridFunction api) : option Cell19 :=
  let bary_grid := barycentric_grid api grid in
  let local_errors_squared_bary :=
    Numpy.zeros (entity_count api bary_grid) in
  local_errors_squared_bary ←
    bary_loop bary_grid base_slp_times_sol local_errors_squared_bary;
  aggregate bary_map (entity_count api grid) local_errors_squared_bary.

(** *** The cells in order, from the grid of cell 7 to the printed numbers *)
Record Report := {
  reported_iterations : Z;
  reported_capacity : F;
  reported_local_errors : list F;
  reported_total_error : F;
  reported_capacity_error : F
}.

Definition report (c11 : Cell11) (c19 : Cell19) : Report :=
  {| reported_iterations := it_count c11;
     reported_capacity := capacity c11;
     reported_local_errors := local_errors c19;
     reported_total_error := printed_total_error c19;
     reported_capacity_error := capacity_error c19 |}.

Definition notebook (grid : Grid api) : option Report :=
  let c9 := cell9 grid in
  c11 ← cell11 c9;
  let bary_map := cell13 grid in
  c19 ← cell19 grid bary_map (base_slp_times_sol c9 (sol_fun c11));
  Some (report c11 c19).

End Notebook.

Arguments slp {F api} _.
Arguments hyp {F api} _.
Arguments base_slp {F api} _.
Arguments rank_one_op {F api} _.
Arguments hyp_regularized {F api} _.
Arguments rhs_fun {F api} _.
Arguments lhs {F api} _.
Arguments x {F api} _.
Arguments info {F api} _.
Arguments it_count {F api} _.
Arguments sol_fun {F api} _.
Arguments capacity {F api} _.

(** ** What the notebook relies on in the grid

    The index set of the refinement numbers its elements apart and below the
    element count, every element of the refinement has three corners, and the
    descendant map is a two-dimensional array with at most one row per
    element of the grid, whose entries are element indices of the
    refinement. *)
Definition grid_data_well_formed {F} (api : Bempp F) (grid : Grid api)
    : Prop :=
  let bary_grid := barycentric_grid api grid in
  let bary_map := barycentric_descendents_map api grid in
  NoDup (entity_index api bary_grid <$> entity_iterator api bary_grid) ∧
  Forall (λ T, entity_index api bary_grid T < entity_count api bary_grid)%nat
    (entity_iterator api bary_grid) ∧
  Forall (λ T, Forall (λ row, length row = 3%nat) (corners api T))
    (entity_iterator api bary_grid) ∧
  (length bary_map <= entity_count api grid)%nat ∧
  Forall (λ row, length row = Numpy.shape1 bary_map) bary_map ∧
  Forall (Forall (λ i, i < entity_count api bary_grid)%nat) bary_map.

(** ** The library with another solver

    [with_gmres api solver] is [api] with [solver] in the place of
    [linalg.gmres]; [with_info api new_info] is [api] whose solver returns the
    same solution and iteration count and [new_info A b] as its [info]. *)
Definition with_gmres {F} (api : Bempp F)
    (solver : BoundaryOperator api → GridFunction api →
              GridFunction api * Z * Z) : Bempp F :=
  {| Grid := Grid api;
     Entity := Entity api;
     Space := Space api;
     BoundaryOperator := BoundaryOperator api;
     GridFunction := GridFunction api;
     entity_count := entity_count api;
     entity_iterator := entity_iterator api;
     entity_index := entity_index api;
     corners := corners api;
     barycentric_grid := barycentric_grid api;
     barycentric_descendents_map := barycentric_descendents_map api;
     single_layer_and_hypersingular_pair :=
       single_layer_and_hypersingular_pair api;
     domain := domain api;
     range := range api;
     dual_to_range := dual_to_range api;
     RankOneBoundaryOperator := RankOneBoundaryOperator api;
     identity := identity api;
     op_add := op_add api;
     op_mul := op_mul api;
     op_apply := op_apply api;
     GridFunction_fun := GridFunction_fun api;
     space := space api;
     integrate := integrate api;
     surface_grad_norm := surface_grad_norm api;
     gmres := solver |}.

Definition with_info {F} (api : Bempp F)
    (new_info : BoundaryOperator api → GridFunction api → Z) : Bempp F :=
  with_gmres api
    (λ A b, let '(x, _, it_count) := gmres api A b in
            (x, new_info A b, it_count)).

(** ** The loops of cell 19, body by body

    The bodies of the loops as functions of their own, and what the loops
    have computed part of the way through. *)
Section LoopBodies.
Context {F : Type} `{Scalar F}.

(** The body of the first loop. *)
Definition bary_body (api : Bempp F) (bary_grid : Grid api)
    (f : GridFunction api) (element : Entity api) (squares : list F)
    : option (list F) :=
  let index := entity_index api bary_grid element in
  local_error_squared ← local_error_squared api f element;
  Numpy.set squares index local_error_squared.

Variable bary_map : list (list nat).
Variable squares : list F.

(** The bodies of the inner and the outer [for] of the second loop. *)
Definition inner_body (m n : nat) (local_errors : list F)
    : option (list F) :=
  i ← Numpy.get2 bary_map m n;
  v ← Numpy.get squares i;
  Numpy.add_at local_errors m v.

Definition outer_body (m : nat) (local_errors : list F) : option (list F) :=
  for_each (inner_body m) (seq 0 (Numpy.shape1 bary_map)) local_errors.

(** What the inner loop leaves in [local_errors[m]]: the squares at the
    indices of [row], added one after the other to what was there. *)
Definition running_total (acc : F) (row : list nat) : F :=
  foldl (λ s i, f_add s (default f_zero (squares !! i))) acc row.

(** After the rows before [j], the array holds their totals followed by the
    zeros it started with. *)
Definition partial_sums (entity_count j : nat) : list F :=
  (running_total f_zero <$> take j bary_map)
    ++ replicate (entity_count - j) f_zero.

End LoopBodies.

(** ** A stand-in for the library

    Enough of the interface to run the notebook's own code: a grid is the list
    of its elements' corner arrays together with those of its refinement, a
    grid function holds one value per element, an operator scales them, and
    the solver hands back the right-hand side. *)
Module Stub.
Section Stub.
Context {F : Type} `{Scalar F}.

Record grid := {
  elements : list (list (list F));
  refinement : list (list (list F))
}.

Definition element : Type := nat * list (list F).

Definition sum (f : list F) : F := foldl f_add f_zero f.

Definition callback_value (fn : Callback F) : F :=
  match fn [] [] 0%Z [f_zero] with
  | Some (v :: _) => v
  | _ => f_zero
  end.

Definition api : Bempp F :=
  {| Grid := grid;
     Entity := element;
     Space := nat;
     BoundaryOperator := nat * F;
     GridFunction := list F;
     entity_count := λ g, length (elements g);
     entity_iterator := λ g, imap pair (elements g);
     entity_index := λ _ e, e.1;
     corners := λ e, e.2;
     barycentric_grid := λ g,
       {| elements := refinement g; refinement := [] |};
     barycentric_descendents_map := λ g,
       (λ m, seq (6 * m) 6) <$> seq 0 (length (elements g));
     single_layer_and_hypersingular_pair := λ g,
       ((length (elements g), f_one), (length (elements g), f_one),
        (length (refinement g), f_one));
     domain := fst;
     range := fst;
     dual_to_range := fst;
     RankOneBoundaryOperator := λ d _ _, (d, f_one);
     identity := λ _ r _, (r, f_one);
     op_add := λ a b, (a.1, f_add a.2 b.2);
     op_mul := λ a b, (b.1, f_mul a.2 b.2);
     op_apply := λ a f,
       take a.1 (f_mul a.2 <$> f ++ replicate a.1 f_zero);
     GridFunction_fun := λ s fn, replicate s (callback_value fn);
     space := length;
     integrate := λ f, [[sum f]];
     surface_grad_norm := λ f e, default f_zero (f !! e.1);
     gmres := λ _ b, (b, 0%Z, 1%Z) |}.

(** One level of barycentric subdivision of a corner array, with the factors
    [half] and [third] supplied: the centroid [g] and the edge midpoints of
    each coordinate row [[a; b; c]]. *)
Definition child_rows (half third : F) (row : list F) : list (list F) :=
  match row with
  | [a; b; c] =>
      let g := f_mul (f_add (f_add a b) c) third in
      let mab := f_mul (f_add a b) half in
      let mbc := f_mul (f_add b c) half in
      let mca := f_mul (f_add c a) half in
      [[a; mab; g]; [mab; b; g]; [b; mbc; g];
       [mbc; c; g]; [c; mca; g]; [mca; a; g]]
  | _ => replicate 6 row
  end.

Definition subdivide (half third : F) (corners : list (list F))
    : list (list (list F)) :=
  (λ k, (λ row, default row (child_rows half third row !! k)) <$> corners)
    <$> seq 0 6.

Definition grid_of (half third : F) (elements : list (list (list F)))
    : grid :=
  {| elements := elements;
     refinement := elements ≫= subdivide half third |}.

(** The unit square in the plane [z = 0], cut into two triangles. *)
Definition unit_square (half third : F) : grid :=
  grid_of half third
    [ [[f_zero; f_one; f_one]; [f_zero; f_zero; f_one];
       [f_zero; f_zero; f_zero]];
      [[f_zero; f_one; f_zero]; [f_zero; f_one; f_one];
       [f_zero; f_zero; f_zero]] ].

End Stub.

Definition float_square : @grid float :=
  unit_square (PrimFloat.div 1 2) (PrimFloat.div 1 3).

Definition real_square : @grid R := unit_square (/ 2) (/ 3).

(** The corner array of the triangle (0,0,0), (3,0,0), (0,4,0). *)
Definition triangle345 : list (list R) := [[0; 3; 0]; [0; 0; 4]; [0; 0; 0]].

End Stub.

(** ** The estimator in the words of the specification

    Over the reals: the sum of the squared indicators of the refined elements
    listed in [row], and the Euclidean norm of a vector. *)
Definition sum_R (xs : list R) : R := foldr Rplus 0 xs.

Definition descendant_sum (squares : list R) (row : list nat) : R :=
  sum_R ((λ n, default 0 (squares !! n)) <$> row).

Definition euclidean_norm (v : list R) : R :=
  sqrt (sum_R ((λ a, a ^ 2) <$> v)).

(** The Euclidean distance between two corners given by their coordinates,
    and the largest of the three pairwise distances. *)
Definition euclidean_distance (p q : list R) : R :=
  sqrt (sum_R (zip_with (λ a b, (a - b) ^ 2) p q)).

Definition max_pairwise_distance (c0 c1 c2 : list R) : R :=
  Rmax (euclidean_distance c0 c1)
       (Rmax (euclidean_distance c0 c2) (euclidean_distance c1 c2)).

(** The corner [j] of an element: column [j] of its corner array. *)
Definition corner {F} (api : Bempp F) (element : Entity api) (j : nat)
    : option (list F) :=
  Numpy.column (corners api element) j.

(** ** The solver's stopping rule *)

Module Krylov.
Section Krylov.
(** One step of the Krylov iteration and the relative residual of an iterate
    are the solver's own; the stopping rule is stated over any such pair. *)
Context {Iterate : Type}.
Variable next : Iterate → Iterate.
Variable rel_residual : Iterate → R.
Variable tol : R.

(** What the solver returns: an iterate, the convergence flag and the
    iteration count. *)
Record Result := {
  iterate : Iterate;
  converged : bool;
  iterations : nat
}.

(** The better of two iterates: the one with the smaller relative residual,
    the later one on a tie. *)
Definition better (a b : Iterate) : Iterate :=
  if Rle_dec (rel_residual b) (rel_residual a) then b else a.

(** Modelled from the spec: the Krylov solver of section 4.4, which is the
    library's [linalg.gmres] and not part of the notebook.  "Stopping rule:
    relative residual below a tolerance or an iteration cap reached, whichever
    first; on cap-reached without tolerance met, the solver returns its best
    iterate together with a convergence flag set to false rather than failing
    outright."  [run cap k x best] has done [k] steps and may do [cap] more;
    [x] is the current iterate and [best] the best one before it. *)
Fixpoint run (cap k : nat) (x best : Iterate) : Result :=
  if Rlt_dec (rel_residual x) tol then
    {| iterate := x; converged := true; iterations := k |}
  else
    match cap with
    | O => {| iterate := better best x; converged := false; iterations := k |}
    | S cap' => run cap' (S k) (next x) (better best x)
    end.

Definition solve (cap : nat) (x0 : Iterate) : Result := run cap 0 x0 x0.

(** The iterate after [k] steps. *)
Definition iterate_at (x0 : Iterate) (k : nat) : Iterate := Nat.iter k next x0.

(** [best] is one of the iterates up to step [k] and no worse than any
    iterate before step [k]. *)
Definition best_so_far (x0 best : Iterate) (k : nat) : Prop :=
  (∃ j, (j <= k)%nat ∧ best = iterate_at x0 j) ∧
  ∀ i, (i < k)%nat → rel_residual best <= rel_residual (iterate_at x0 i).

End Krylov.
End Krylov.

(** ** Barycentric refinement *)

Module Barycentric.

Record point := { px : R; py : R; pz : R }.

(** An element with its three corner positions. *)
Record triangle := { ta : point; tb : point; tc : point }.

Definition midpoint (p q : point) : point :=
  {| px := (px p + px q) / 2; py := (py p + py q) / 2;
     pz := (pz p + pz q) / 2 |}.

Definition centroid (t : triangle) : point :=
  {| px := (px (ta t) + px (tb t) + px (tc t)) / 3;
     py := (py (ta t) + py (tb t) + py (tc t)) / 3;
     pz := (pz (ta t) + pz (tb t) + pz (tc t)) / 3 |}.

(** Modelled from the spec: the barycentric refinement of section 3 and the
    glossary, which is the library's [barycentric_grid] and
    [barycentric_descendents_map] and not part of the notebook.  "One level of
    subdivision of each triangle into six sub-triangles": each sub-triangle
    has a corner or an edge midpoint of the parent, the next one along the
    boundary, and the centroid. *)
Definition subdivide (t : triangle) : list triangle :=
  let g := centroid t in
  let mab := midpoint (ta t) (tb t) in
  let mbc := midpoint (tb t) (tc t) in
  let mca := midpoint (tc t) (ta t) in
  [ {| ta := ta t; tb := mab; tc := g |};
    {| ta := mab; tb := tb t; tc := g |};
    {| ta := tb t; tb := mbc; tc := g |};
    {| ta := mbc; tb := tc t; tc := g |};
    {| ta := tc t; tb := mca; tc := g |};
    {| ta := mca; tb := ta t; tc := g |} ].

(** Modelled from the spec: "a companion mesh obtained by one level of
    barycentric subdivision", which is the library's [barycentric_grid].  The
    refinement lists the sub-triangles parent by parent; an element's index
    is its position, in the mesh and in the refinement. *)
Definition barycentric_grid (mesh : list triangle) : list triangle :=
  mesh ≫= subdivide.

(** Modelled from the spec: "a map from each original element index to the
    fixed-size ordered list of its descendant element indices in the
    refinement", which is the library's [barycentric_descendents_map]. *)
Definition barycentric_descendents_map (mesh : list triangle)
    : list (list nat) :=
  (λ m, seq (6 * m) 6) <$> seq 0 (length mesh).

(** The area of a triangle: half the length of the cross product of two of
    its edge vectors. *)
Definition cross_sqnorm (t : triangle) : R :=
  let ux := px (tb t) - px (ta t) in
  let uy := py (tb t) - py (ta t) in
  let uz := pz (tb t) - pz (ta t) in
  let vx := px (tc t) - px (ta t) in
  let vy := py (tc t) - py (ta t) in
  let vz := pz (tc t) - pz (ta t) in
  (uy * vz - uz * vy) ^ 2 + (uz * vx - ux * vz) ^ 2 + (ux * vy - uy * vx) ^ 2.

Definition area (t : triangle) : R := sqrt (cross_sqnorm t) / 2.

(** The areas of the refined elements listed in [row]; [None] when an index
    is not one of the refinement. *)
Definition descendant_areas (refined : list triangle) (row : list nat)
    : option (list R) :=
  mapM (λ i, area <$> refined !! i) row.

End Barycentric.

(** ** Regularization of the hypersingular operator *)

Module Regularization.

(** The sum of [f 0], ..., [f (n - 1)]. *)
Fixpoint big_sum (n : nat) (f : nat → R) : R :=
  match n with
  | O => 0
  | S k => big_sum k f + f k
  end.

Section Regularization.
(** A space of [n] degrees of freedom; a discrete function is its coefficient
    vector and an operator the matrix of its weak form, both read at the
    indices below [n].  [weight i] is the integral of the basis function [i],
    so that the pairing of [w] with the constant one is the dot product of the
    coefficients with the weights. *)
Variable n : nat.
Variable weight : nat → R.

Definition pairing_with_one (w : nat → R) : R :=
  big_sum n (λ i, w i * weight i).

(** [apply A w] is the coefficient vector of the functional
    [v ↦ ⟨A w, v⟩]. *)
Definition apply (A : nat → nat → R) (w : nat → R) : nat → R :=
  λ i, big_sum n (λ j, A i j * w j).

(** [⟨A w, v⟩] *)
Definition weak_form (A : nat → nat → R) (w v : nat → R) : R :=
  big_sum n (λ i, v i * apply A w i).

(** The constant-one function. *)
Definition one : nat → R := λ _, 1.

(** Modelled from the spec: the rank-one operator of section 4.3, which is
    the library's [RankOneBoundaryOperator] and not part of the notebook: "a
    rank-one operator R defined by ⟨Rw,v⟩ = ⟨w,1⟩⟨v,1⟩". *)
Definition rank_one : nat → nat → R := λ i j, weight i * weight j.

(** The sum of two operators, and the regularized operator [W + R]. *)
Definition add (A B : nat → nat → R) : nat → nat → R :=
  λ i j, A i j + B i j.

Definition regularized (W : nat → nat → R) : nat → nat → R :=
  add W rank_one.

Definition vanishes (w : nat → R) : Prop := ∀ i, (i < n)%nat → w i = 0.

Definition constant (w : nat → R) : Prop :=
  ∃ c, ∀ i, (i < n)%nat → w i = c.

(** Modelled from the spec: the hypersingular operator [W] is assembled by
    the library and not part of the notebook.  Section 8: "the assembled
    hypersingular operator is symmetric on its domain". *)
Definition symmetric (W : nat → nat → R) : Prop :=
  ∀ i j, (i < n)%nat → (j < n)%nat → W i j = W j i.

(** Modelled from the spec: section 4.3 of the same operator, "W has a
    one-dimensional null space spanned by the constant function". *)
Definition null_space_is_constants (W : nat → nat → R) : Prop :=
  ∀ w, vanishes (apply W w) ↔ constant w.

End Regularization.
End Regularization.

(** A space of two degrees of freedom with unit weights, and the operator
    with the matrix [[1, -1], [-1, 1]]: symmetric, with the constants as its
    null space. *)
Definition two_dof_W : nat → nat → R :=
  λ i j, if decide (i = j) then 1 else -1.

Definition unit_weight : nat → R := λ _, 1.

(** ** Cell 21: the errors in the numbering of a function space

    Two more entry points of the library, with the arguments the notebook
    passes fixed. *)
Record BemppSpaces {F : Type} (api : Bempp F) := {
  (** [function_space(grid, "DP", 0)] *)
  function_space : Grid api → Space api;
  (** [space.get_global_dofs(element, dof_weights=False)], a list of
      integers *)
  get_global_dofs : Space api → Entity api → list Z;
  (** [GridFunction(space, coefficients=c)] *)
  GridFunction_coefficients : Space api → list F → GridFunction api
}.

Arguments function_space {F api} _ _.
Arguments get_global_dofs {F api} _ _ _.
Arguments GridFunction_coefficients {F api} _ _ _.

Section Cell21.
Context {F : Type} `{Scalar F} (api : Bempp F) (spaces : BemppSpaces api).

(** The loop of the cell:
<<
for element in grid.leaf_view.entity_iterator(0):
    index = index_set.entity_index(element)
    global_dof_index = const_space.get_global_dofs(element, dof_weights=False)[0]
    sorted_local_errors[global_dof_index] = local_errors[index]
>> *)
Definition resort_loop (grid : Grid api) (const_space : Space api)
    (local_errors sorted_local_errors : list F) : option (list F) :=
  for_each
    (λ element sorted_local_errors,
       let index := entity_index api grid element in
       global_dof_index ←
         get_global_dofs spaces const_space element !! 0%nat;
       v ← Numpy.get local_errors index;
       Numpy.set_item sorted_local_errors global_dof_index v)
    (entity_iterator api grid) sorted_local_errors.

(** The cell:
<<
const_space = bempp.api.function_space(grid, "DP", 0)

sorted_local_errors = np.zeros_like(local_errors)
index_set = grid.leaf_view.index_set()
for element in grid.leaf_view.entity_iterator(0):
    ...

bempp.api.GridFunction(const_space, coefficients=sorted_local_errors).plot()
>>
    [plotted] is the grid function whose plot the cell shows. *)
Record Cell21 := {
  const_space : Space api;
  sorted_local_errors : list F;
  plotted : GridFunction api
}.

Definition cell21 (grid : Grid api) (local_errors : list F)
    : option Cell21 :=
  let const_space := function_space spaces grid in
  let sorted_local_errors := Numpy.zeros_like local_errors in
  sorted_local_errors ←
    resort_loop grid const_space local_errors sorted_local_errors;
  Some {| const_space := const_space;
          sorted_local_errors := sorted_local_errors;
          plotted :=
            GridFunction_coefficients spaces const_space
              sorted_local_errors |}.

(** The position in [sorted_local_errors] that the loop writes for an
    element: the first of its global dofs, as an index into an array of
    length [n]. *)
Definition dof_position (const_space : Space api) (n : nat)
    (element : Entity api) : option nat :=
  global_dof_index ← get_global_dofs spaces const_space element !! 0%nat;
  Numpy.position n global_dof_index.

End Cell21.

Arguments const_space {F api} _.
Arguments sorted_local_errors {F api} _.
Arguments plotted {F api} _.

(** The corner array of an element scaled by [s] and moved by the vector
    [t]: coordinate [k] of every corner becomes [s * a + t_k]. *)
Definition similar_corners (s : R) (t : list R) (corners : list (list R))
    : list (list R) :=
  zip_with (λ tk row, (λ a, s * a + tk) <$> row) t corners.

(** The diameter as a function of the three corners, when the element has
    them. *)
Definition diameter_of_corners (a b c : option (list R)) : option R :=
  c0 ← a; c1 ← b; c2 ← c; Some (max_pairwise_distance c0 c1 c2).


(** What one step [local_errors[m] += squares[bary_map[m, n]]] of the second
    loop needs, for an array of squares with [size] entries and
    [entity_count] entries of [local_errors]: the entry of the map, the
    square it points at, and [local_errors[m]]. *)
Definition step_in_range (bary_map : list (list nat))
    (size entity_count m n : nat) : Prop :=
  (m < entity_count)%nat ∧
  ∃ i, Numpy.get2 bary_map m n = Some i ∧ (i < size)%nat.

(** ** A library with one degree of freedom

    Operators and grid functions are real numbers, an operator acts by
    multiplication, and the solver divides: an implementation in which the
    product of two operators acts as the one after the other and the solver
    returns an exact solution. The grid has no element. *)
Definition one_dof : Bempp R :=
  {| Grid := unit;
     Entity := unit;
     Space := unit;
     BoundaryOperator := R;
     GridFunction := R;
     entity_count := λ _, 0%nat;
     entity_iterator := λ _, [];
     entity_index := λ _ _, 0%nat;
     corners := λ _, [];
     barycentric_grid := λ g, g;
     barycentric_descendents_map := λ _, [];
     single_layer_and_hypersingular_pair := λ _, (1, 0, 1);
     domain := λ _, tt;
     range := λ _, tt;
     dual_to_range := λ _, tt;
     RankOneBoundaryOperator := λ _ _ _, 1;
     identity := λ _ _ _, 1;
     op_add := Rplus;
     op_mul := Rmult;
     op_apply := Rmult;
     GridFunction_fun := λ _ fn, Stub.callback_value fn;
     space := λ _, tt;
     integrate := λ f, [[f]];
     surface_grad_norm := λ _ _, 0;
     gmres := λ A b, (b / A, 0%Z, 1%Z) |}.

(** The spaces of the stand-in library: a space is the number of its dofs,
    and element [k] of a grid with [n] elements has the one global dof
    [n - 1 - k], the numbering of the index set run backwards. *)
Definition reversed_dofs {F} `{Scalar F} : BemppSpaces (Stub.api (F := F)) :=
  {| function_space := λ g : Grid Stub.api, length (Stub.elements g);
     get_global_dofs := λ (s : Space Stub.api) (e : Entity Stub.api),
       [(Z.of_nat s - 1 - Z.of_nat e.1)%Z];
     GridFunction_coefficients := λ _ c, c |}.

(** The body of the loop of cell 21. *)
Definition resort_body {F} `{Scalar F} (api : Bempp F)
    (spaces : BemppSpaces api) (grid : Grid api) (const_space : Space api)
    (local_errors : list F) (element : Entity api)
    (sorted_local_errors : list F) : option (list F) :=
  let index := entity_index api grid element in
  global_dof_index ← get_global_dofs spaces const_space element !! 0%nat;
  v ← Numpy.get local_errors index;
  Numpy.set_item sorted_local_errors global_dof_index v.
(** * Proofs *)

(** ** Sums *)

Lemma sum_R_nil : sum_R [] = 0.
Proof. reflexivity. Qed.

Lemma sum_R_cons (a : R) (xs : list R) : sum_R (a :: xs) = a + sum_R xs.
Proof. reflexivity. Qed.

Lemma sum_R_app (xs ys : list R) : sum_R (xs ++ ys) = sum_R xs + sum_R ys.
Proof.
  induction xs as [|y l IH].
  - rewrite app_nil_l, sum_R_nil. lra.
  - rewrite <- app_comm_cons, !sum_R_cons, IH. lra.
Qed.

Lemma sum_R_nonneg (xs : list R) : Forall (λ a, 0 <= a) xs → 0 <= sum_R xs.
Proof.
  induction 1 as [|a l Ha _ IH]; [rewrite sum_R_nil | rewrite sum_R_cons]; lra.
Qed.

(** A running total from [a], as a loop accumulates it, is [a] plus the sum. *)
Lemma foldl_add_sum_R {A} (f : A → R) (xs : list A) (a : R) :
  foldl (λ s xi, s + f xi) a xs = a + sum_R (f <$> xs).
Proof.
  revert a. induction xs as [|y ys IH]; intros a.
  - rewrite fmap_nil, sum_R_nil. simpl. lra.
  - rewrite fmap_cons, sum_R_cons. simpl. rewrite IH. lra.
Qed.

Lemma sqnorm_sum_squares (v : list R) :
  Numpy.sqnorm v = sum_R ((λ a, a ^ 2) <$> v).
Proof.
  unfold Numpy.sqnorm. simpl.
  rewrite (foldl_add_sum_R (λ a, a * a)), Rplus_0_l.
  f_equal. apply list_fmap_ext. intros _ a _. simpl. ring.
Qed.

Lemma linalg_norm_euclidean (v : list R) :
  Numpy.linalg_norm v = euclidean_norm v.
Proof.
  unfold Numpy.linalg_norm, euclidean_norm. simpl.
  by rewrite sqnorm_sum_squares.
Qed.

(** ** The diameter *)

Lemma norm_vsub_distance (p q : list R) :
  Numpy.linalg_norm (Numpy.vsub p q) = euclidean_distance p q.
Proof.
  rewrite linalg_norm_euclidean. unfold euclidean_norm, euclidean_distance.
  do 2 f_equal. unfold Numpy.vsub. simpl. clear.
  revert q. induction p as [|a p IH]; intros [|b q]; simpl; try done.
  by rewrite IH.
Qed.

Lemma column_is_Some {A} (a : list (list A)) (j : nat) :
  Forall (λ row, j < length row)%nat a → is_Some (Numpy.column a j).
Proof.
  intros Hrows. unfold Numpy.column. apply mapM_is_Some.
  eapply Forall_impl; [exact Hrows|]. intros row Hj. simpl.
  by apply lookup_lt_is_Some.
Qed.

(** C8. For every element with three corners, the diameter the estimator
    computes is the largest of the three distances between two of its
    corners, max(|c0 - c1|, |c0 - c2|, |c1 - c2|). *)
Theorem diameter_max_pairwise_distance (api : Bempp R) (element : Entity api) :
  Forall (λ row, length row = 3%nat) (corners api element) →
  ∃ c0 c1 c2,
    corner api element 0 = Some c0 ∧
    corner api element 1 = Some c1 ∧
    corner api element 2 = Some c2 ∧
    diameter api element = Some (max_pairwise_distance c0 c1 c2).
Proof.
  intros Hshape.
  assert (Hcol : ∀ j, (j < 3)%nat → is_Some (corner api element j)).
  { intros j Hj. apply column_is_Some.
    eapply Forall_impl; [exact Hshape|]. simpl. intros row ->. exact Hj. }
  destruct (Hcol 0%nat) as [c0 H0]; [lia|].
  destruct (Hcol 1%nat) as [c1 H1]; [lia|].
  destruct (Hcol 2%nat) as [c2 H2]; [lia|].
  exists c0, c1, c2. repeat split; try done.
  unfold diameter. unfold corner in H0, H1, H2.
  rewrite H0, H1, H2.
  cbn [mbind option_bind Numpy.max foldl f_maximum R_scalar].
  rewrite !norm_vsub_distance. unfold max_pairwise_distance.
  by rewrite Rmax_assoc.
Qed.

(** The triangle with corners (0,0,0), (3,0,0) and (0,4,0). *)
Lemma diameter_max_pairwise_distance_witness :
  ∃ c0 c1 c2,
    corner Stub.api (0%nat, Stub.triangle345) 0 = Some c0 ∧
    corner Stub.api (0%nat, Stub.triangle345) 1 = Some c1 ∧
    corner Stub.api (0%nat, Stub.triangle345) 2 = Some c2 ∧
    diameter Stub.api (0%nat, Stub.triangle345)
      = Some (max_pairwise_distance c0 c1 c2).
Proof.
  apply (diameter_max_pairwise_distance Stub.api (0%nat, Stub.triangle345)).
  simpl. repeat constructor.
Defined.

(** ** Array updates *)

Lemma set_Some {A} (a : list A) (i : nat) (v : A) :
  (i < length a)%nat → Numpy.set a i v = Some (<[i := v]> a).
Proof. intros Hi. unfold Numpy.set. by rewrite decide_True. Qed.

Lemma add_at_Some {F} `{Scalar F} (a : list F) (i : nat) (old v : F) :
  a !! i = Some old → Numpy.add_at a i v = Some (<[i := f_add old v]> a).
Proof.
  intros Hold. unfold Numpy.add_at, Numpy.get. rewrite Hold. simpl.
  apply set_Some. by eapply lookup_lt_Some.
Qed.

(** ** The second loop: summing over the descendants *)

Section SumLoop.
Context {F : Type} `{Scalar F}.
Variable bary_map : list (list nat).
Variable squares : list F.

Lemma inner_body_Some (m n i : nat) (row : list nat)
    (local_errors : list F) (acc v : F) :
  bary_map !! m = Some row → row !! n = Some i → squares !! i = Some v →
  local_errors !! m = Some acc →
  inner_body bary_map squares m n local_errors
  = Some (<[m := f_add acc v]> local_errors).
Proof.
  intros Hrow Hi Hv Hacc. unfold inner_body, Numpy.get2, Numpy.get.
  rewrite Hrow. simpl. rewrite Hi. simpl. rewrite Hv. simpl.
  by apply add_at_Some.
Qed.

(** The inner loop from column [j] on adds the squares of the descendants
    listed from there on to [local_errors[m]]. *)
Lemma inner_loop_from (m : nat) (row : list nat) (k j : nat)
    (local_errors : list F) (acc : F) :
  bary_map !! m = Some row →
  Forall (λ i, i < length squares)%nat row →
  (j + k = length row)%nat →
  local_errors !! m = Some acc →
  for_each (inner_body bary_map squares m) (seq j k) local_errors
  = Some (<[m := running_total squares acc (drop j row)]> local_errors).
Proof.
  intros Hrow Hin. revert j local_errors acc.
  induction k as [|k IH]; intros j local_errors acc Hlen Hacc.
  - rewrite drop_ge by lia. simpl. by rewrite list_insert_id.
  - destruct (lookup_lt_is_Some_2 row j) as [i Hi]; [lia|].
    assert (Hlt : (i < length squares)%nat).
    { by eapply (proj1 (Forall_lookup _ _) Hin). }
    destruct (lookup_lt_is_Some_2 squares i Hlt) as [v Hv].
    rewrite <- cons_seq. cbn [for_each].
    rewrite (inner_body_Some _ _ i row _ acc v) by done. simpl.
    rewrite (IH (S j) _ (f_add acc v)).
    + rewrite list_insert_insert_eq. do 2 f_equal.
      rewrite (drop_S _ _ _ Hi). simpl. by rewrite Hv.
    + lia.
    + apply list_lookup_insert_eq. by eapply lookup_lt_Some.
Qed.

Lemma outer_body_Some (m : nat) (row : list nat) (local_errors : list F)
    (acc : F) :
  bary_map !! m = Some row →
  length row = Numpy.shape1 bary_map →
  Forall (λ i, i < length squares)%nat row →
  local_errors !! m = Some acc →
  outer_body bary_map squares m local_errors
  = Some (<[m := running_total squares acc row]> local_errors).
Proof.
  intros Hrow Hlen Hin Hacc. unfold outer_body.
  rewrite (inner_loop_from m row _ 0 _ acc Hrow Hin);
    [by rewrite drop_0 | by rewrite Hlen | done].
Qed.

Hypothesis rows_of_one_length :
  Forall (λ row, length row = Numpy.shape1 bary_map) bary_map.
Hypothesis indices_in_range :
  Forall (Forall (λ i, i < length squares)%nat) bary_map.

Lemma outer_loop_from (entity_count k j : nat) :
  (length bary_map <= entity_count)%nat →
  (j + k = length bary_map)%nat →
  for_each (outer_body bary_map squares) (seq j k)
    (partial_sums bary_map squares entity_count j)
  = Some (partial_sums bary_map squares entity_count (length bary_map)).
Proof.
  intros Hcount. revert j.
  induction k as [|k IH]; intros j Hlen.
  - simpl. do 2 f_equal. lia.
  - destruct (lookup_lt_is_Some_2 bary_map j) as [row Hrow]; [lia|].
    rewrite <- cons_seq. cbn [for_each].
    assert (Hl : length (running_total squares f_zero <$> take j bary_map)
                 = j).
    { rewrite length_fmap, length_take. lia. }
    assert (Hj : partial_sums bary_map squares entity_count j !! j
                 = Some f_zero).
    { unfold partial_sums. rewrite lookup_app_r; rewrite Hl; [|lia].
      apply lookup_replicate_2. lia. }
    rewrite (outer_body_Some j row _ f_zero Hrow); try done.
    + simpl. rewrite <- (IH (S j)) by lia. f_equal.
      unfold partial_sums.
      rewrite (take_S_r _ _ _ Hrow), fmap_app, <- app_assoc. simpl.
      replace (entity_count - j)%nat with (S (entity_count - S j)) by lia.
      simpl.
      rewrite insert_app_r_alt by lia. by rewrite Hl, Nat.sub_diag.
    + by eapply (proj1 (Forall_lookup _ _) rows_of_one_length).
    + by eapply (proj1 (Forall_lookup _ _) indices_in_range).
Qed.

Lemma sum_loop_Some (entity_count : nat) :
  (length bary_map <= entity_count)%nat →
  sum_loop bary_map squares (Numpy.zeros entity_count)
  = Some (partial_sums bary_map squares entity_count (length bary_map)).
Proof.
  intros Hcount.
  pose proof (outer_loop_from entity_count (length bary_map) 0
                Hcount eq_refl) as Hloop.
  unfold partial_sums at 1 in Hloop.
  rewrite take_0, Nat.sub_0_r in Hloop. exact Hloop.
Qed.

(** The cell's aggregation returns, with the square roots of the totals. *)
Lemma aggregate_Some (entity_count : nat) :
  (length bary_map <= entity_count)%nat →
  ∃ c19,
    aggregate bary_map entity_count squares = Some c19 ∧
    local_errors c19
    = f_sqrt
        <$> partial_sums bary_map squares entity_count (length bary_map) ∧
    total_error c19 = Numpy.linalg_norm (local_errors c19) ∧
    printed_total_error c19 = total_error c19 ∧
    capacity_error c19 = f_pow (total_error c19) 2.
Proof.
  intros Hcount. unfold aggregate. rewrite (sum_loop_Some _ Hcount). simpl.
  eexists. split; [reflexivity|]. done.
Qed.

End SumLoop.

(** Over the reals the order of the additions does not matter: the running
    total from zero is the sum over the descendants. *)
Lemma running_total_descendant_sum (squares : list R) (row : list nat) :
  running_total squares 0 row = descendant_sum squares row.
Proof.
  unfold running_total, descendant_sum. simpl.
  rewrite (foldl_add_sum_R (λ i, default 0 (squares !! i))). lra.
Qed.

Lemma partial_sums_full_lookup (bary_map : list (list nat)) (squares : list R)
    (entity_count m : nat) (row : list nat) :
  bary_map !! m = Some row →
  partial_sums bary_map squares entity_count (length bary_map) !! m
  = Some (descendant_sum squares row).
Proof.
  intros Hrow. unfold partial_sums. rewrite firstn_all.
  rewrite lookup_app_l by (rewrite length_fmap; by eapply lookup_lt_Some).
  by rewrite list_lookup_fmap, Hrow, <- running_total_descendant_sum.
Qed.

(** C5. For every original element [m], the aggregated indicator is the
    square root of the sum of the squared indicators of the refined elements
    that the barycentric map lists for [m]; the global indicator is the
    Euclidean norm of the vector of aggregated indicators, and the reported
    estimate for the capacity is its square. *)
Theorem aggregate_sqrt_of_descendant_sums (bary_map : list (list nat))
    (entity_count : nat) (squares : list R) :
  (length bary_map <= entity_count)%nat →
  Forall (λ row, length row = Numpy.shape1 bary_map) bary_map →
  Forall (Forall (λ i, i < length squares)%nat) bary_map →
  ∃ c19,
    aggregate bary_map entity_count squares = Some c19 ∧
    length (local_errors c19) = entity_count ∧
    (∀ m row, bary_map !! m = Some row →
       local_errors c19 !! m = Some (sqrt (descendant_sum squares row))) ∧
    (∀ m, (length bary_map <= m < entity_count)%nat →
       local_errors c19 !! m = Some 0) ∧
    total_error c19 = euclidean_norm (local_errors c19) ∧
    printed_total_error c19 = total_error c19 ∧
    capacity_error c19 = total_error c19 ^ 2.
Proof.
  intros Hcount Hshape Hin.
  destruct (aggregate_Some bary_map squares Hshape Hin entity_count Hcount)
    as (c19 & Hrun & Hlocal & Htotal & Hprinted & Hcap).
  exists c19. split; [exact Hrun|]. rewrite Hlocal.
  split; [|split; [|split; [|split; [|split]]]].
  - unfold partial_sums.
    rewrite length_fmap, length_app, length_fmap, length_take, length_replicate.
    lia.
  - intros m row Hrow.
    by rewrite list_lookup_fmap, (partial_sums_full_lookup _ _ _ _ row).
  - intros m Hm. unfold partial_sums.
    rewrite list_lookup_fmap, firstn_all, lookup_app_r;
      rewrite length_fmap; [|lia].
    rewrite lookup_replicate_2 by lia. simpl. by rewrite sqrt_0.
  - rewrite Htotal, Hlocal. apply linalg_norm_euclidean.
  - exact Hprinted.
  - exact Hcap.
Qed.

(** Two elements with two descendants each. *)
Lemma aggregate_sqrt_of_descendant_sums_witness :
  ∃ c19,
    aggregate [[0; 1]; [2; 3]]%nat 2 [1; 3; 4; 5] = Some c19 ∧
    length (local_errors c19) = 2%nat ∧
    (∀ m row, [[0; 1]; [2; 3]]%nat !! m = Some row →
       local_errors c19 !! m
       = Some (sqrt (descendant_sum [1; 3; 4; 5] row))) ∧
    (∀ m, (2 <= m < 2)%nat → local_errors c19 !! m = Some 0) ∧
    total_error c19 = euclidean_norm (local_errors c19) ∧
    printed_total_error c19 = total_error c19 ∧
    capacity_error c19 = total_error c19 ^ 2.
Proof.
  apply (aggregate_sqrt_of_descendant_sums
           [[0; 1]; [2; 3]]%nat 2 [1; 3; 4; 5]).
  - simpl. lia.
  - repeat constructor.
  - repeat constructor.
Defined.

(** ** The estimate for the capacity as a sum *)

Lemma sum_R_replicate_zero (k : nat) : sum_R (replicate k 0) = 0.
Proof.
  induction k as [|k IH]; [done|].
  cbn [replicate]. rewrite sum_R_cons, IH. lra.
Qed.

Lemma sum_R_squares_of_roots (xs : list R) :
  Forall (λ a, 0 <= a) xs →
  sum_R ((λ a, a ^ 2) <$> (sqrt <$> xs)) = sum_R xs.
Proof.
  induction 1 as [|a xs Ha _ IH]; [done|].
  rewrite !fmap_cons, !sum_R_cons, IH, pow2_sqrt by done. done.
Qed.

Lemma sum_R_zero_iff (xs : list R) :
  Forall (λ a, 0 <= a) xs → sum_R xs = 0 ↔ Forall (λ a, a = 0) xs.
Proof.
  induction 1 as [|a xs Ha Hxs IH]; [by split|].
  rewrite sum_R_cons, Forall_cons, <- IH.
  pose proof (sum_R_nonneg xs Hxs). split; [|intros [-> ->]; lra].
  intros Hsum. split; lra.
Qed.

Lemma descendant_sum_nonneg (squares : list R) (row : list nat) :
  Forall (λ a, 0 <= a) squares → 0 <= descendant_sum squares row.
Proof.
  intros Hsq. apply sum_R_nonneg, Forall_fmap, Forall_forall.
  intros i _. simpl. destruct (squares !! i) as [a|] eqn:Ha; simpl; [|lra].
  by eapply (proj1 (Forall_lookup _ _) Hsq).
Qed.

(** With squared indicators that are not negative, the estimate reported for
    the capacity is the sum of the squared indicators over all the
    descendants the map lists. *)
Lemma capacity_error_sum (bary_map : list (list nat)) (entity_count : nat)
    (squares : list R) (c19 : Cell19) :
  (length bary_map <= entity_count)%nat →
  Forall (λ row, length row = Numpy.shape1 bary_map) bary_map →
  Forall (Forall (λ i, i < length squares)%nat) bary_map →
  Forall (λ a, 0 <= a) squares →
  aggregate bary_map entity_count squares = Some c19 →
  capacity_error c19 = sum_R (descendant_sum squares <$> bary_map).
Proof.
  intros Hcount Hshape Hin Hsq Hrun.
  destruct (aggregate_Some bary_map squares Hshape Hin entity_count Hcount)
    as (c19' & Hrun' & Hlocal & Htotal & _ & Hcap).
  rewrite Hrun in Hrun'. injection Hrun' as <-.
  rewrite Hcap, Htotal, linalg_norm_euclidean, Hlocal.
  unfold euclidean_norm, partial_sums. rewrite firstn_all. simpl.
  assert (Hnonneg : Forall (λ a, 0 <= a)
            ((running_total squares 0 <$> bary_map)
               ++ replicate (entity_count - length bary_map) 0)).
  { apply Forall_app. split.
    - apply Forall_fmap, Forall_forall. intros row _. simpl.
      rewrite running_total_descendant_sum. by apply descendant_sum_nonneg.
    - apply Forall_replicate. lra. }
  change (λ a : R, a * (a * 1)) with (λ a : R, a ^ 2).
  rewrite (sum_R_squares_of_roots _ Hnonneg).
  rewrite Rmult_1_r, sqrt_sqrt by by apply sum_R_nonneg.
  rewrite sum_R_app, sum_R_replicate_zero, Rplus_0_r. f_equal.
  apply list_fmap_ext. intros _ row _. apply running_total_descendant_sum.
Qed.

(** So the estimate is zero exactly when the squared indicator of every
    descendant is zero: the aggregation loses nothing and cancels nothing. *)
Lemma capacity_error_zero_iff (bary_map : list (list nat))
    (entity_count : nat) (squares : list R) (c19 : Cell19) :
  (length bary_map <= entity_count)%nat →
  Forall (λ row, length row = Numpy.shape1 bary_map) bary_map →
  Forall (Forall (λ i, i < length squares)%nat) bary_map →
  Forall (λ a, 0 <= a) squares →
  aggregate bary_map entity_count squares = Some c19 →
  capacity_error c19 = 0 ↔
  ∀ m n i, Numpy.get2 bary_map m n = Some i → squares !! i = Some 0.
Proof.
  intros Hcount Hshape Hin Hsq Hrun.
  rewrite (capacity_error_sum _ _ _ _ Hcount Hshape Hin Hsq Hrun).
  rewrite sum_R_zero_iff
    by (apply Forall_fmap, Forall_forall; intros row _;
        by apply descendant_sum_nonneg).
  rewrite Forall_fmap, Forall_lookup. unfold Numpy.get2. split.
  - intros Hzero m n i Hi. apply bind_Some in Hi as (row & Hrow & Hi).
    pose proof (Hzero m row Hrow) as Hsum. simpl in Hsum.
    unfold descendant_sum in Hsum. apply sum_R_zero_iff in Hsum.
    + rewrite Forall_fmap, Forall_lookup in Hsum.
      pose proof (Hsum n i Hi) as Hi0. simpl in Hi0.
      assert (Hlt : (i < length squares)%nat).
      { pose proof (proj1 (Forall_lookup _ _) Hin m row Hrow) as Hrow_in.
        exact (proj1 (Forall_lookup _ _) Hrow_in n i Hi). }
      destruct (lookup_lt_is_Some_2 squares i Hlt) as [a Ha].
      rewrite Ha in Hi0. simpl in Hi0. by rewrite Ha, Hi0.
    + apply Forall_fmap, Forall_forall. intros j _. simpl.
      destruct (squares !! j) as [a|] eqn:Ha; simpl; [|lra].
      by eapply (proj1 (Forall_lookup _ _) Hsq).
  - intros Hzero m row Hrow. simpl. unfold descendant_sum.
    apply sum_R_zero_iff.
    + apply Forall_fmap, Forall_forall. intros j _. simpl.
      destruct (squares !! j) as [a|] eqn:Ha; simpl; [|lra].
      by eapply (proj1 (Forall_lookup _ _) Hsq).
    + rewrite Forall_fmap, Forall_lookup. intros n i Hi. simpl.
      rewrite (Hzero m n i); [done|]. by rewrite Hrow.
Qed.

(** ** The first loop: the indicators on the refinement *)

Section BaryLoop.
Context {F : Type} `{Scalar F} (api : Bempp F).

Lemma diameter_is_Some (element : Entity api) :
  Forall (λ row, length row = 3%nat) (corners api element) →
  is_Some (diameter api element).
Proof.
  intros Hshape.
  assert (Hcol : ∀ j, (j < 3)%nat →
            is_Some (Numpy.column (corners api element) j)).
  { intros j Hj. apply column_is_Some.
    eapply Forall_impl; [exact Hshape|]. simpl. intros row ->. exact Hj. }
  destruct (Hcol 0%nat) as [c0 H0]; [lia|].
  destruct (Hcol 1%nat) as [c1 H1]; [lia|].
  destruct (Hcol 2%nat) as [c2 H2]; [lia|].
  unfold diameter. rewrite H0, H1, H2. simpl. eauto.
Qed.

(** Run over elements with distinct indices inside the array, the loop
    stores each element's value at its index and leaves the other entries as
    they were. *)
Lemma bary_loop_from (bary_grid : Grid api) (f : GridFunction api)
    (elements : list (Entity api)) (squares : list F) :
  NoDup (entity_index api bary_grid <$> elements) →
  Forall (λ T, entity_index api bary_grid T < length squares)%nat elements →
  Forall (λ T, is_Some (diameter api T)) elements →
  ∃ squares',
    for_each (bary_body api bary_grid f) elements squares = Some squares' ∧
    length squares' = length squares ∧
    (∀ T, T ∈ elements →
       ∃ diam, diameter api T = Some diam ∧
         squares' !! entity_index api bary_grid T
         = Some (f_mul diam (f_pow (surface_grad_norm api f T) 2))) ∧
    (∀ i, i ∉ entity_index api bary_grid <$> elements →
       squares' !! i = squares !! i).
Proof.
  revert squares.
  induction elements as [|T rest IH]; intros squares Hdup Hin Hdiam.
  - exists squares. simpl. repeat split; try done.
    intros T HT. by apply elem_of_nil in HT.
  - rewrite fmap_cons in Hdup. apply NoDup_cons in Hdup as [HT Hdup].
    apply Forall_cons in Hin as [HTin Hin].
    apply Forall_cons in Hdiam as [[diam HTdiam] Hdiam].
    set (v := f_mul diam (f_pow (surface_grad_norm api f T) 2)).
    assert (Hbody : bary_body api bary_grid f T squares
                    = Some (<[entity_index api bary_grid T := v]> squares)).
    { unfold bary_body, local_error_squared. rewrite HTdiam. simpl.
      by apply set_Some. }
    destruct (IH (<[entity_index api bary_grid T := v]> squares))
      as (squares' & Hrun & Hlen & Hval & Hframe); try done.
    { by rewrite length_insert. }
    exists squares'. cbn [for_each]. rewrite Hbody. simpl.
    split; [exact Hrun|]. split; [by rewrite Hlen, length_insert|]. split.
    + intros T' HT'. apply elem_of_cons in HT' as [->|HT'].
      * exists diam. split; [done|].
        rewrite (Hframe _ HT). by apply list_lookup_insert_eq.
      * by apply Hval.
    + intros i Hi. apply not_elem_of_cons in Hi as [Hne Hi].
      rewrite (Hframe _ Hi). by apply list_lookup_insert_ne.
Qed.

(** C4. For every element [T] of the barycentric refinement, the squared
    indicator the estimator stores for [T] is the diameter of [T] times the
    square of the surface gradient norm over [T] of the base single-layer
    operator applied to the solution mapped into the space on the refinement;
    the right-hand side does not enter. *)
Theorem local_error_squared_on_refinement (grid : Grid api)
    (sol_fun : GridFunction api) :
  let c9 := cell9 api grid in
  let bary_grid := barycentric_grid api grid in
  let phi_base :=
    op_apply api
      (identity api (space api sol_fun)
         (domain api (base_slp c9)) (domain api (base_slp c9)))
      sol_fun in
  let V_phi_base := op_apply api (base_slp c9) phi_base in
  NoDup (entity_index api bary_grid <$> entity_iterator api bary_grid) →
  Forall (λ T, entity_index api bary_grid T < entity_count api bary_grid)%nat
    (entity_iterator api bary_grid) →
  Forall (λ T, Forall (λ row, length row = 3%nat) (corners api T))
    (entity_iterator api bary_grid) →
  ∃ squares,
    bary_loop api bary_grid (base_slp_times_sol api c9 sol_fun)
      (Numpy.zeros (entity_count api bary_grid)) = Some squares ∧
    length squares = entity_count api bary_grid ∧
    ∀ T, T ∈ entity_iterator api bary_grid →
      ∃ diam, diameter api T = Some diam ∧
        squares !! entity_index api bary_grid T
        = Some (f_mul diam (f_pow (surface_grad_norm api V_phi_base T) 2)).
Proof.
  intros c9 bary_grid phi_base V_phi_base Hdup Hin Hshape.
  destruct (bary_loop_from bary_grid (base_slp_times_sol api c9 sol_fun)
              (entity_iterator api bary_grid)
              (Numpy.zeros (entity_count api bary_grid)))
    as (squares & Hrun & Hlen & Hval & _).
  - exact Hdup.
  - unfold Numpy.zeros. by rewrite length_replicate.
  - eapply Forall_impl; [exact Hshape|]. intros T. apply diameter_is_Some.
  - exists squares. split; [exact Hrun|]. split.
    + rewrite Hlen. unfold Numpy.zeros. by rewrite length_replicate.
    + exact Hval.
Qed.

End BaryLoop.

(** ** The solve and the capacity *)

Section Pipeline.
Context {F : Type} `{Scalar F} (api : Bempp F).

(** The callback writes -1 into the first entry of the buffer, wherever it is
    called. *)
Lemma one_fun_minus_one (x n : list F) (domain_index : Z) (res : list F) :
  (0 < length res)%nat →
  one_fun x n domain_index res = Some (<[0%nat := f_neg f_one]> res).
Proof. intros Hres. unfold one_fun. by apply set_Some. Qed.

Lemma cell11_inv (c9 : Cell9 api) (c11 : Cell11 api) :
  cell11 api c9 = Some c11 →
  gmres api (lhs c9) (rhs_fun c9) = (x c11, info c11, it_count c11) ∧
  sol_fun c11 = op_apply api (hyp_regularized c9) (x c11) ∧
  ∃ integral,
    Numpy.get2 (integrate api (sol_fun c11)) 0 0 = Some integral ∧
    capacity c11 = f_neg integral.
Proof.
  unfold cell11. destruct (gmres api (lhs c9) (rhs_fun c9)) as [[x0 i0] n0].
  intros Hc11. apply bind_Some in Hc11 as (integral & Hint & Hc11).
  injection Hc11 as <-. simpl. eauto.
Qed.

Lemma notebook_inv (grid : Grid api) (r : Report) :
  notebook api grid = Some r →
  ∃ c11 c19,
    cell11 api (cell9 api grid) = Some c11 ∧
    cell19 api grid (cell13 api grid)
      (base_slp_times_sol api (cell9 api grid) (sol_fun c11)) = Some c19 ∧
    r = report api c11 c19.
Proof.
  unfold notebook. intros Hr.
  apply bind_Some in Hr as (c11 & Hc11 & Hr).
  apply bind_Some in Hr as (c19 & Hc19 & Hr).
  injection Hr as <-. eauto.
Qed.

(** The operators of cell 9, whatever the library returns for the pair. *)
Lemma cell9_operators (grid : Grid api) :
  let c9 := cell9 api grid in
  rank_one_op c9
  = RankOneBoundaryOperator api
      (domain api (hyp c9)) (range api (hyp c9)) (dual_to_range api (hyp c9)) ∧
  hyp_regularized c9 = op_add api (hyp c9) (rank_one_op c9) ∧
  rhs_fun c9 = GridFunction_fun api (range api (slp c9)) one_fun ∧
  lhs c9 = op_mul api (slp c9) (hyp_regularized c9).
Proof.
  unfold cell9.
  by destruct (single_layer_and_hypersingular_pair api grid) as [[V W] base].
Qed.

(** Why [phi] is the solution looked for: when the product of two operators
    acts as the one after the other and the solver's [x] solves the system it
    was given, [phi] solves the equation with the single-layer operator
    alone. *)
Lemma phi_solves_single_layer_equation (grid : Grid api) (c11 : Cell11 api) :
  (∀ A B f,
     op_apply api (op_mul api A B) f = op_apply api A (op_apply api B f)) →
  cell11 api (cell9 api grid) = Some c11 →
  op_apply api (lhs (cell9 api grid)) (x c11) = rhs_fun (cell9 api grid) →
  op_apply api (slp (cell9 api grid)) (sol_fun c11)
  = rhs_fun (cell9 api grid).
Proof.
  intros Hmul Hc11 Hsolved.
  apply cell11_inv in Hc11 as (_ & -> & _).
  rewrite <- Hsolved. unfold cell9.
  destruct (single_layer_and_hypersingular_pair api grid) as [[V W] base].
  simpl. by rewrite Hmul.
Qed.

(** C1. The notebook hands GMRES the product of the single-layer operator [V]
    and the regularized hypersingular operator as the system and, as the
    right-hand side, the grid function that the callback with the constant
    value -1 defines on the range space of [V]; it then applies the
    regularized operator to the solver's [x] to get [phi], and the capacity
    it reports is minus the integral of [phi]. *)
Theorem capacity_of_preconditioned_solve (grid : Grid api) (r : Report) :
  notebook api grid = Some r →
  ∃ V W base x info it_count integral,
    single_layer_and_hypersingular_pair api grid = (V, W, base) ∧
    let W_reg :=
      op_add api W
        (RankOneBoundaryOperator api
           (domain api W) (range api W) (dual_to_range api W)) in
    let minus_one := GridFunction_fun api (range api V) one_fun in
    let phi := op_apply api W_reg x in
    (∀ p n i res, (0 < length res)%nat →
       one_fun p n i res = Some (<[0%nat := f_neg f_one]> res)) ∧
    gmres api (op_mul api V W_reg) minus_one = (x, info, it_count) ∧
    Numpy.get2 (integrate api phi) 0 0 = Some integral ∧
    reported_iterations r = it_count ∧
    reported_capacity r = f_neg integral.
Proof.
  intros Hr. apply notebook_inv in Hr as (c11 & c19 & Hc11 & _ & ->).
  apply cell11_inv in Hc11 as (Hsolve & Hsol & integral & Hint & Hcap).
  revert Hsolve Hsol. unfold cell9.
  destruct (single_layer_and_hypersingular_pair api grid) as [[V W] base].
  simpl. intros Hsolve Hsol.
  exists V, W, base, (x c11), (info c11), (it_count c11), integral.
  repeat split; try done.
  - apply one_fun_minus_one.
  - by rewrite <- Hsol.
Qed.

End Pipeline.

(** C10. The numbers and indicators the notebook reports do not depend on the
    [info] the solver returns: with any other [info] for every system, the
    notebook reports the same. *)
Theorem notebook_ignores_info {F : Type} `{Scalar F} (api : Bempp F)
    (new_info : BoundaryOperator api → GridFunction api → Z)
    (grid : Grid api) :
  notebook (with_info api new_info) grid = notebook api grid.
Proof.
  unfold notebook, cell11, cell9, with_info, with_gmres. simpl.
  destruct (single_layer_and_hypersingular_pair api grid) as [[V W] base].
  simpl. destruct (gmres api _ _) as [[x0 i0] n0]. simpl.
  destruct (Numpy.get2 _ 0 0); reflexivity.
Qed.

(** ** The notebook returns *)

Section NotebookReturns.
Context {F : Type} `{Scalar F} (api : Bempp F).

(** On a grid whose data is well formed, every cell runs through and the
    notebook reports its numbers. *)
Lemma notebook_returns (grid : Grid api) :
  grid_data_well_formed api grid →
  (∀ f, is_Some (Numpy.get2 (integrate api f) 0 0)) →
  is_Some (notebook api grid).
Proof.
  intros (Hdup & Hidx & Hcorners & Hrows & Hshape & Hin) Hint.
  unfold notebook, cell11.
  destruct (gmres api _ _) as [[x0 i0] n0].
  destruct (Hint (op_apply api (hyp_regularized (cell9 api grid)) x0))
    as [integral Hintegral].
  rewrite Hintegral. simpl. unfold cell19.
  destruct (bary_loop_from api (barycentric_grid api grid)
              (base_slp_times_sol api (cell9 api grid)
                 (op_apply api (hyp_regularized (cell9 api grid)) x0))
              (entity_iterator api (barycentric_grid api grid))
              (Numpy.zeros (entity_count api (barycentric_grid api grid))))
    as (squares & Hrun & Hlen & _).
  - exact Hdup.
  - unfold Numpy.zeros. by rewrite length_replicate.
  - eapply Forall_impl; [exact Hcorners|]. intros T. apply diameter_is_Some.
  - unfold bary_loop. unfold bary_body in Hrun. rewrite Hrun. simpl.
    destruct (aggregate_Some (cell13 api grid) squares)
      with (entity_count := entity_count api grid)
      as (c19 & Hagg & _); try done.
    + unfold Numpy.zeros in Hlen. rewrite length_replicate in Hlen.
      by rewrite Hlen.
    + rewrite Hagg. simpl. eauto.
Qed.

End NotebookReturns.

(** ** A zero estimate *)

Section ZeroEstimate.
Context (api : Bempp R).

Lemma diameter_nonneg (element : Entity api) (diam : R) :
  diameter api element = Some diam → 0 <= diam.
Proof.
  unfold diameter. intros Hdiam.
  apply bind_Some in Hdiam as (c0 & _ & Hdiam).
  apply bind_Some in Hdiam as (c1 & _ & Hdiam).
  apply bind_Some in Hdiam as (c2 & _ & Hdiam).
  injection Hdiam as <-. simpl.
  etrans; [|apply Rmax_r]. apply sqrt_pos.
Qed.

(** The squared indicators the first loop leaves are not negative. *)
Lemma bary_loop_nonneg (bary_grid : Grid api) (f : GridFunction api)
    (squares : list R) :
  NoDup (entity_index api bary_grid <$> entity_iterator api bary_grid) →
  Forall (λ T, entity_index api bary_grid T < entity_count api bary_grid)%nat
    (entity_iterator api bary_grid) →
  Forall (λ T, Forall (λ row, length row = 3%nat) (corners api T))
    (entity_iterator api bary_grid) →
  bary_loop api bary_grid f (Numpy.zeros (entity_count api bary_grid))
  = Some squares →
  Forall (λ a, 0 <= a) squares.
Proof.
  intros Hdup Hidx Hcorners Hrun.
  destruct (bary_loop_from api bary_grid f (entity_iterator api bary_grid)
              (Numpy.zeros (entity_count api bary_grid)))
    as (squares' & Hrun' & _ & Hval & Hframe).
  - exact Hdup.
  - unfold Numpy.zeros. by rewrite length_replicate.
  - eapply Forall_impl; [exact Hcorners|]. intros T. apply diameter_is_Some.
  - unfold bary_loop in Hrun. unfold bary_body in Hrun'.
    rewrite Hrun in Hrun'. injection Hrun' as <-.
    apply Forall_lookup. intros i a Ha.
    destruct (decide (i ∈ entity_index api bary_grid
                            <$> entity_iterator api bary_grid)) as [Hi|Hi].
    + apply list_elem_of_fmap in Hi as (T & -> & HT).
      destruct (Hval T HT) as (diam & Hdiam & Hsq).
      rewrite Ha in Hsq. injection Hsq as ->. simpl.
      apply Rmult_le_pos; [by eapply diameter_nonneg|]. nra.
    + rewrite (Hframe i Hi) in Ha. unfold Numpy.zeros in Ha.
      apply lookup_replicate in Ha as [-> _]. simpl. lra.
Qed.

(** When the estimate the notebook reports for the capacity is zero, every
    refined element that the descendant map lists has diameter zero or a
    surface gradient norm, as the library returns it, of zero. *)
Lemma zero_estimate_zero_indicators (grid : Grid api) (r : Report) :
  grid_data_well_formed api grid →
  notebook api grid = Some r →
  reported_capacity_error r = 0 →
  ∃ c11,
    cell11 api (cell9 api grid) = Some c11 ∧
    ∀ T m n diam,
      T ∈ entity_iterator api (barycentric_grid api grid) →
      Numpy.get2 (barycentric_descendents_map api grid) m n
      = Some (entity_index api (barycentric_grid api grid) T) →
      diameter api T = Some diam →
      diam = 0 ∨
      surface_grad_norm api
        (base_slp_times_sol api (cell9 api grid) (sol_fun c11)) T = 0.
Proof.
  intros (Hdup & Hidx & Hcorners & Hrows & Hshape & Hin) Hr Hzero.
  apply notebook_inv in Hr as (c11 & c19 & Hc11 & Hc19 & ->).
  exists c11. split; [exact Hc11|].
  unfold cell19 in Hc19.
  apply bind_Some in Hc19 as (squares & Hloop & Hagg).
  pose proof (bary_loop_nonneg _ _ _ Hdup Hidx Hcorners Hloop) as Hnonneg.
  destruct (bary_loop_from api (barycentric_grid api grid)
              (base_slp_times_sol api (cell9 api grid) (sol_fun c11))
              (entity_iterator api (barycentric_grid api grid))
              (Numpy.zeros (entity_count api (barycentric_grid api grid))))
    as (squares' & Hrun' & Hlen & Hval & _).
  { exact Hdup. }
  { unfold Numpy.zeros. by rewrite length_replicate. }
  { eapply Forall_impl; [exact Hcorners|]. intros T. apply diameter_is_Some. }
  unfold bary_loop in Hloop. unfold bary_body in Hrun'.
  rewrite Hloop in Hrun'. injection Hrun' as <-.
  unfold Numpy.zeros in Hlen. rewrite length_replicate in Hlen.
  unfold cell13 in Hagg. simpl in Hzero.
  assert (Hin' : Forall (Forall (λ i, i < length squares)%nat)
                   (barycentric_descendents_map api grid)).
  { by rewrite Hlen. }
  pose proof (proj1 (capacity_error_zero_iff _ _ _ _ Hrows Hshape Hin'
                       Hnonneg Hagg) Hzero) as Hall.
  intros T m n diam HT Hlisted Hdiam.
  destruct (Hval T HT) as (diam' & Hdiam' & Hsq).
  rewrite Hdiam in Hdiam'. injection Hdiam' as <-.
  rewrite (Hall m n _ Hlisted) in Hsq. injection Hsq as Hsq. simpl in Hsq.
  symmetry in Hsq. apply Rmult_integral in Hsq as [Hd|Hg]; [by left|right].
  apply Rmult_integral in Hg as [Hg|Hg]; [done|]. lra.
Qed.

End ZeroEstimate.

(** ** The notebook on the stand-in library *)

(** On binary64 the definitions run: the 3-4-5 triangle has diameter 5. *)
Example diameter_3_4_5 :
  diameter (F := float) Stub.api
    (0%nat, [[0; 3; 0]; [0; 0; 4]; [0; 0; 0]]%float) = Some 5%float.
Proof. vm_compute. reflexivity. Qed.

(** The aggregation of four squared indicators to two elements. *)
Example aggregate_on_floats :
  local_errors
    <$> aggregate [[0; 1]; [2; 3]]%nat 2 [1; 3; 4; 5]%float
  = Some [2; 3]%float.
Proof. vm_compute. reflexivity. Qed.

(** The whole notebook on the unit square. *)
Example notebook_on_float_square :
  (λ r, (reported_iterations r, reported_capacity r))
    <$> notebook Stub.api Stub.float_square
  = Some (1%Z, 4%float).
Proof. vm_compute. reflexivity. Qed.

(** The grid data of the unit square is well formed. *)
Example notebook_returns_on_real_square :
  is_Some (notebook Stub.api Stub.real_square).
Proof.
  apply notebook_returns.
  - repeat split.
    + vm_compute. exact (NoDup_seq 0 12).
    + vm_compute. repeat constructor.
    + vm_compute. repeat constructor.
    + vm_compute. lia.
    + vm_compute. repeat constructor.
    + vm_compute. repeat constructor.
  - intros f. simpl. eauto.
Qed.

(** The solve and the capacity on the unit square. *)
Lemma capacity_of_preconditioned_solve_witness :
  ∃ r,
    notebook Stub.api Stub.float_square = Some r ∧
    ∃ V W base x info it_count integral,
      single_layer_and_hypersingular_pair Stub.api Stub.float_square
      = (V, W, base) ∧
      let W_reg :=
        op_add Stub.api W
          (RankOneBoundaryOperator Stub.api (domain Stub.api W)
             (range Stub.api W) (dual_to_range Stub.api W)) in
      let minus_one :=
        GridFunction_fun Stub.api (range Stub.api V) one_fun in
      let phi := op_apply Stub.api W_reg x in
      (∀ p n i res, (0 < length res)%nat →
         one_fun p n i res = Some (<[0%nat := f_neg f_one]> res)) ∧
      gmres Stub.api (op_mul Stub.api V W_reg) minus_one
      = (x, info, it_count) ∧
      Numpy.get2 (integrate Stub.api phi) 0 0 = Some integral ∧
      reported_iterations r = it_count ∧
      reported_capacity r = f_neg integral.
Proof.
  assert (Hr : ∃ r, notebook Stub.api Stub.float_square = Some r).
  { vm_compute. eauto. }
  destruct Hr as [r Hr]. exists r. split; [exact Hr|].
  exact (capacity_of_preconditioned_solve Stub.api Stub.float_square r Hr).
Defined.

(** The first loop on the refinement of the unit square. *)
Lemma local_error_squared_on_refinement_witness :
  let api := Stub.api (F := float) in
  let grid := Stub.float_square in
  let sol_fun := [1; 2]%float in
  let c9 := cell9 api grid in
  let bary_grid := barycentric_grid api grid in
  let phi_base :=
    op_apply api
      (identity api (space api sol_fun)
         (domain api (base_slp c9)) (domain api (base_slp c9)))
      sol_fun in
  let V_phi_base := op_apply api (base_slp c9) phi_base in
  ∃ squares,
    bary_loop api bary_grid (base_slp_times_sol api c9 sol_fun)
      (Numpy.zeros (entity_count api bary_grid)) = Some squares ∧
    length squares = entity_count api bary_grid ∧
    ∀ T, T ∈ entity_iterator api bary_grid →
      ∃ diam, diameter api T = Some diam ∧
        squares !! entity_index api bary_grid T
        = Some (f_mul diam (f_pow (surface_grad_norm api V_phi_base T) 2)).
Proof.
  apply (local_error_squared_on_refinement
           Stub.api Stub.float_square [1; 2]%float).
  - vm_compute. exact (NoDup_seq 0 12).
  - vm_compute. repeat constructor.
  - vm_compute. repeat constructor.
Defined.

(** ** The stopping rule *)

Section KrylovProofs.
Context {Iterate : Type}.
Variable next : Iterate → Iterate.
Variable rel_residual : Iterate → R.
Variable tol : R.

Abbreviation run := (Krylov.run next rel_residual tol).
Abbreviation better := (Krylov.better rel_residual).
Abbreviation iterate_at := (Krylov.iterate_at next).
Abbreviation best_so_far := (Krylov.best_so_far next rel_residual).

Lemma better_cases (a b : Iterate) :
  (better a b = a ∨ better a b = b) ∧
  rel_residual (better a b) <= rel_residual a ∧
  rel_residual (better a b) <= rel_residual b.
Proof.
  unfold Krylov.better.
  destruct (Rle_dec (rel_residual b) (rel_residual a)); intuition lra.
Qed.

Lemma run_cap_reached (x0 : Iterate) (cap k : nat) (best : Iterate) :
  best_so_far x0 best k →
  (∀ i, (k <= i <= k + cap)%nat → ¬ rel_residual (iterate_at x0 i) < tol) →
  let r := run cap k (iterate_at x0 k) best in
  Krylov.converged r = false ∧
  Krylov.iterations r = (k + cap)%nat ∧
  (∃ j, (j <= k + cap)%nat ∧ Krylov.iterate r = iterate_at x0 j) ∧
  ∀ i, (i <= k + cap)%nat →
    rel_residual (Krylov.iterate r) <= rel_residual (iterate_at x0 i).
Proof.
  revert k best.
  induction cap as [|cap IH]; intros k best [[j [Hj Hbest]] Hmin] Habove.
  - simpl. destruct (Rlt_dec _ tol) as [Hlt|_].
    { exfalso. apply (Habove k); [lia | exact Hlt]. }
    simpl. rewrite Nat.add_0_r. repeat split; try done.
    + destruct (better_cases best (iterate_at x0 k)) as [[->| ->] _].
      * exists j. split; [lia | done].
      * exists k. split; [lia | done].
    + intros i Hi.
      destruct (better_cases best (iterate_at x0 k)) as [_ [Hb Hx]].
      destruct (decide (i = k)) as [->|Hne]; [done|].
      etrans; [exact Hb|]. apply Hmin. lia.
  - cbn [Krylov.run]. destruct (Rlt_dec _ tol) as [Hlt|_].
    { exfalso. apply (Habove k); [lia | exact Hlt]. }
    replace (k + S cap)%nat with (S k + cap)%nat by lia.
    apply (IH (S k) (better best (iterate_at x0 k))).
    + split.
      * destruct (better_cases best (iterate_at x0 k)) as [[->| ->] _].
        -- exists j. split; [lia | done].
        -- exists k. split; [lia | done].
      * intros i Hi.
        destruct (better_cases best (iterate_at x0 k)) as [_ [Hb Hx]].
        destruct (decide (i = k)) as [->|Hne]; [done|].
        etrans; [exact Hb|]. apply Hmin. lia.
    + intros i Hi. apply Habove. lia.
Qed.

(** C9. When the iteration cap is reached and no iterate up to it has met
    the tolerance, the solver still returns: the convergence flag is false,
    the iteration count is the cap, and the iterate returned is one of those
    computed, with the smallest relative residual among them. *)
Theorem solve_cap_reached (cap : nat) (x0 : Iterate) :
  (∀ k, (k <= cap)%nat → ¬ rel_residual (iterate_at x0 k) < tol) →
  let r := Krylov.solve next rel_residual tol cap x0 in
  Krylov.converged r = false ∧
  Krylov.iterations r = cap ∧
  (∃ k, (k <= cap)%nat ∧ Krylov.iterate r = iterate_at x0 k) ∧
  ∀ k, (k <= cap)%nat →
    rel_residual (Krylov.iterate r) <= rel_residual (iterate_at x0 k).
Proof.
  intros Habove r.
  destruct (run_cap_reached x0 cap 0 x0)
    as (Hflag & Hcount & [j [Hj Hit]] & Hmin).
  - split; [exists 0%nat; split; [lia | done] | intros i Hi; lia].
  - intros i Hi. apply Habove. lia.
  - subst r. unfold Krylov.solve. repeat split; try done.
    exists j. split; [lia | done].
Qed.

End KrylovProofs.

(** A residual that halves at every step, from 1, with a cap of two steps and
    the tolerance 1e-5. *)
Lemma solve_cap_reached_witness :
  let r := Krylov.solve (λ a, a / 2) (λ a, a) (/ 100000) 2 1 in
  Krylov.converged r = false ∧
  Krylov.iterations r = 2%nat ∧
  (∃ k, (k <= 2)%nat ∧
     Krylov.iterate r = Krylov.iterate_at (λ a, a / 2) 1 k) ∧
  ∀ k, (k <= 2)%nat →
    Krylov.iterate r <= Krylov.iterate_at (λ a, a / 2) 1 k.
Proof.
  apply (solve_cap_reached (λ a, a / 2) (λ a, a) (/ 100000) 2 1).
  intros k Hk.
  destruct k as [|[|[|k]]]; [| | | lia]; unfold Krylov.iterate_at; simpl; lra.
Defined.

(** ** The convergence flag *)

Section KrylovFlag.
Context {Iterate : Type}.
Variable next : Iterate → Iterate.
Variable rel_residual : Iterate → R.
Variable tol : R.

(** A result flagged as converged meets the tolerance. *)
Lemma run_converged (cap k : nat) (x best : Iterate) :
  let r := Krylov.run next rel_residual tol cap k x best in
  Krylov.converged r = true → rel_residual (Krylov.iterate r) < tol.
Proof.
  revert k x best. induction cap as [|cap IH]; intros k x best; simpl;
    destruct (Rlt_dec (rel_residual x) tol); simpl; try done.
  apply IH.
Qed.

Lemma run_tolerance_met (x0 : Iterate) (d cap j : nat) (best : Iterate) :
  (d <= cap)%nat →
  rel_residual (Krylov.iterate_at next x0 (j + d)) < tol →
  (∀ i, (j <= i < j + d)%nat →
     ¬ rel_residual (Krylov.iterate_at next x0 i) < tol) →
  Krylov.run next rel_residual tol cap j (Krylov.iterate_at next x0 j) best
  = {| Krylov.iterate := Krylov.iterate_at next x0 (j + d);
       Krylov.converged := true;
       Krylov.iterations := (j + d)%nat |}.
Proof.
  revert cap j best.
  induction d as [|d IH]; intros cap j best Hcap Hmet Habove.
  - rewrite Nat.add_0_r in *.
    destruct cap; simpl; by destruct (Rlt_dec _ tol).
  - destruct cap as [|cap]; [lia|]. cbn [Krylov.run].
    destruct (Rlt_dec _ tol) as [Hlt|_].
    { exfalso. apply (Habove j); [lia | exact Hlt]. }
    replace (j + S d)%nat with (S j + d)%nat in * by lia.
    apply (IH cap (S j)); [lia | done |].
    intros i Hi. apply Habove. lia.
Qed.

(** The tolerance met first at step [k], no later than the cap: the solver
    stops there, with that iterate and the flag set. *)
Lemma solve_tolerance_met (cap k : nat) (x0 : Iterate) :
  (k <= cap)%nat →
  rel_residual (Krylov.iterate_at next x0 k) < tol →
  (∀ i, (i < k)%nat → ¬ rel_residual (Krylov.iterate_at next x0 i) < tol) →
  Krylov.solve next rel_residual tol cap x0
  = {| Krylov.iterate := Krylov.iterate_at next x0 k;
       Krylov.converged := true;
       Krylov.iterations := k |}.
Proof.
  intros Hk Hmet Habove. unfold Krylov.solve.
  apply (run_tolerance_met x0 k cap 0 x0); [done | done |].
  intros i Hi. apply Habove. lia.
Qed.

End KrylovFlag.

(** ** The barycentric map *)

Section BarycentricProofs.
Import Barycentric.

Lemma subdivide_length (t : triangle) : length (subdivide t) = 6%nat.
Proof. reflexivity. Qed.

Lemma barycentric_grid_length (mesh : list triangle) :
  length (barycentric_grid mesh) = (6 * length mesh)%nat.
Proof.
  unfold barycentric_grid. induction mesh as [|t mesh IH]; [done|].
  rewrite bind_cons, length_app, IH, subdivide_length. simpl. lia.
Qed.

(** The refinement lists the sub-triangles of element [m] from index [6 m]
    on. *)
Lemma barycentric_grid_lookup (mesh : list triangle) (m j : nat)
    (t : triangle) :
  mesh !! m = Some t → (j < 6)%nat →
  barycentric_grid mesh !! (6 * m + j)%nat = subdivide t !! j.
Proof.
  unfold barycentric_grid. revert m.
  induction mesh as [|t0 mesh IH]; intros m Ht Hj; [done|].
  rewrite bind_cons. destruct m as [|m].
  - injection Ht as ->. rewrite lookup_app_l; [done|].
    rewrite subdivide_length. lia.
  - rewrite lookup_app_r; rewrite subdivide_length; [|lia].
    replace (6 * S m + j - 6)%nat with (6 * m + j)%nat by lia.
    by apply IH.
Qed.

Lemma descendents_concat_from (j k : nat) :
  concat ((λ m, seq (6 * m) 6) <$> seq j k) = seq (6 * j) (6 * k).
Proof.
  revert j. induction k as [|k IH]; intros j; [done|].
  rewrite <- cons_seq, fmap_cons, concat_cons, IH.
  replace (6 * S k)%nat with (6 + 6 * k)%nat by lia.
  rewrite seq_app. do 2 f_equal. lia.
Qed.

Lemma descendents_concat (mesh : list triangle) :
  concat (barycentric_descendents_map mesh)
  = seq 0 (length (barycentric_grid mesh)).
Proof.
  unfold barycentric_descendents_map.
  by rewrite descendents_concat_from, barycentric_grid_length.
Qed.

Lemma descendents_row (mesh : list triangle) (m : nat) (row : list nat) :
  barycentric_descendents_map mesh !! m = Some row →
  (m < length mesh)%nat ∧ row = seq (6 * m) 6.
Proof.
  unfold barycentric_descendents_map. rewrite list_lookup_fmap.
  intros Hrow. apply fmap_Some in Hrow as (m' & Hm' & ->).
  apply lookup_seq in Hm' as [-> Hm]. done.
Qed.

Lemma cross_sqnorm_nonneg (t : triangle) : 0 <= cross_sqnorm t.
Proof.
  unfold cross_sqnorm. cbv zeta.
  repeat apply Rplus_le_le_0_compat; apply pow2_ge_0.
Qed.

Lemma sqrt_over_36 (c : R) : 0 <= c → sqrt (c / 36) = sqrt c / 6.
Proof.
  intros Hc. replace (c / 36) with (c * (/ 6 * / 6)) by field.
  rewrite sqrt_mult_alt by done. rewrite sqrt_square by lra. lra.
Qed.

(** Each of the six sub-triangles has a sixth of the parent's area. *)
Lemma subdivide_area (t child : triangle) :
  child ∈ subdivide t → area child = area t / 6.
Proof.
  intros Hchild. unfold area.
  cut (sqrt (cross_sqnorm child) = sqrt (cross_sqnorm t) / 6); [lra|].
  rewrite <- (sqrt_over_36 (cross_sqnorm t)) by apply cross_sqnorm_nonneg.
  f_equal.
  unfold subdivide in Hchild.
  repeat (apply elem_of_cons in Hchild as [->|Hchild]);
    [| | | | | | by apply elem_of_nil in Hchild];
    unfold cross_sqnorm, midpoint, centroid; simpl; field.
Qed.

Lemma descendant_areas_row (mesh : list triangle) (m : nat) (t : triangle) :
  mesh !! m = Some t →
  descendant_areas (barycentric_grid mesh) (seq (6 * m) 6)
  = Some (area <$> subdivide t).
Proof.
  intros Ht. unfold descendant_areas. apply mapM_Some.
  apply Forall2_same_length_lookup. split; [done|].
  intros j i a Hi Ha. apply lookup_seq in Hi as [-> Hj].
  rewrite (barycentric_grid_lookup mesh m j t Ht Hj).
  by rewrite list_lookup_fmap in Ha.
Qed.

Lemma sum_R_sixths (a : R) (xs : list R) :
  length xs = 6%nat → Forall (λ b, b = a / 6) xs → sum_R xs = a.
Proof.
  intros Hlen Hall.
  do 7 (destruct xs as [|? xs]; try done).
  repeat (apply Forall_cons in Hall as [-> Hall]).
  unfold sum_R. simpl. lra.
Qed.

(** C7. The descendant map has six descendants for every parent; flattened,
    it lists every element index of the refinement exactly once, so the
    descendant lists of two parents share no index; and the areas of a
    parent's descendants add up to the parent's area. *)
Theorem barycentric_descendents_partition (mesh : list triangle) :
  let refined := barycentric_grid mesh in
  let bary_map := barycentric_descendents_map mesh in
  length bary_map = length mesh ∧
  Forall (λ row, length row = 6%nat) bary_map ∧
  NoDup (concat bary_map) ∧
  (∀ i, i ∈ concat bary_map ↔ (i < length refined)%nat) ∧
  (∀ m1 m2 row1 row2 i,
     m1 ≠ m2 → bary_map !! m1 = Some row1 → bary_map !! m2 = Some row2 →
     i ∈ row1 → i ∉ row2) ∧
  (∀ m t row,
     mesh !! m = Some t → bary_map !! m = Some row →
     ∃ areas,
       descendant_areas refined row = Some areas ∧ sum_R areas = area t).
Proof.
  intros refined bary_map. subst refined bary_map. repeat split.
  - unfold barycentric_descendents_map. by rewrite length_fmap, length_seq.
  - unfold barycentric_descendents_map. apply Forall_fmap, Forall_forall.
    intros m _. apply length_seq.
  - rewrite descendents_concat. apply NoDup_seq.
  - rewrite descendents_concat. intros Hi. apply elem_of_seq in Hi. lia.
  - rewrite descendents_concat. intros Hi. apply elem_of_seq. lia.
  - intros m1 m2 row1 row2 i Hne H1 H2 Hi1 Hi2.
    apply descendents_row in H1 as [_ ->].
    apply descendents_row in H2 as [_ ->].
    apply elem_of_seq in Hi1. apply elem_of_seq in Hi2. lia.
  - intros m t row Ht Hrow. apply descendents_row in Hrow as [_ ->].
    exists (area <$> subdivide t). split.
    + by apply descendant_areas_row.
    + apply sum_R_sixths; [done|].
      apply Forall_fmap, Forall_forall. intros child Hchild. simpl.
      by apply subdivide_area.
Qed.

End BarycentricProofs.

(** ** The aggregation over the barycentric map *)

Lemma sum_R_descendant_concat (squares : list R) (rows : list (list nat)) :
  sum_R (descendant_sum squares <$> rows)
  = descendant_sum squares (concat rows).
Proof.
  induction rows as [|row rows IH]; [done|].
  rewrite fmap_cons, sum_R_cons, IH. unfold descendant_sum.
  by rewrite concat_cons, fmap_app, sum_R_app.
Qed.

Lemma descendant_sum_all (squares : list R) :
  descendant_sum squares (seq 0 (length squares)) = sum_R squares.
Proof.
  unfold descendant_sum. f_equal. apply list_eq. intros i.
  rewrite list_lookup_fmap.
  destruct (decide (i < length squares)%nat) as [Hi|Hi].
  - rewrite lookup_seq_lt by done. simpl.
    destruct (lookup_lt_is_Some_2 squares i Hi) as [a Ha]. by rewrite Ha.
  - rewrite lookup_seq_ge by lia. simpl. symmetry.
    apply lookup_ge_None. lia.
Qed.

(** With the descendant map of the barycentric refinement, the aggregation
    counts every refined element once: the estimate reported for the capacity
    is the sum of all the squared indicators on the refinement. *)
Lemma capacity_error_over_refinement (mesh : list Barycentric.triangle)
    (squares : list R) (c19 : Cell19) :
  length squares = length (Barycentric.barycentric_grid mesh) →
  Forall (λ a, 0 <= a) squares →
  aggregate (Barycentric.barycentric_descendents_map mesh) (length mesh)
    squares = Some c19 →
  capacity_error c19 = sum_R squares.
Proof.
  intros Hlen Hsq Hrun.
  assert (Hrows : (length (Barycentric.barycentric_descendents_map mesh)
                   <= length mesh)%nat).
  { unfold Barycentric.barycentric_descendents_map.
    by rewrite length_fmap, length_seq. }
  assert (Hshape :
    Forall (λ row, length row
                   = Numpy.shape1 (Barycentric.barycentric_descendents_map mesh))
      (Barycentric.barycentric_descendents_map mesh)).
  { unfold Barycentric.barycentric_descendents_map.
    destruct mesh as [|t mesh]; [by constructor|].
    apply Forall_fmap, Forall_forall. intros m _. done. }
  assert (Hin : Forall (Forall (λ i, i < length squares)%nat)
                  (Barycentric.barycentric_descendents_map mesh)).
  { apply Forall_lookup. intros m row Hrow.
    apply descendents_row in Hrow as [Hm ->].
    apply Forall_forall. intros i Hi. apply elem_of_seq in Hi.
    rewrite Hlen, barycentric_grid_length. lia. }
  rewrite (capacity_error_sum _ _ _ _ Hrows Hshape Hin Hsq Hrun).
  by rewrite sum_R_descendant_concat, descendents_concat, <- Hlen,
    descendant_sum_all.
Qed.

(** ** The regularized operator *)

Section BigSum.
Import Regularization.

Lemma big_sum_ext (n : nat) (f g : nat → R) :
  (∀ i, (i < n)%nat → f i = g i) → big_sum n f = big_sum n g.
Proof.
  induction n as [|n IH]; intros Hfg; [done|]. simpl.
  rewrite IH, Hfg; [done | lia |]. intros i Hi. apply Hfg. lia.
Qed.

Lemma big_sum_zero (n : nat) (f : nat → R) :
  (∀ i, (i < n)%nat → f i = 0) → big_sum n f = 0.
Proof.
  induction n as [|n IH]; intros Hf; [done|]. simpl.
  rewrite IH, Hf; [lra | lia |]. intros i Hi. apply Hf. lia.
Qed.

Lemma big_sum_plus (n : nat) (f g : nat → R) :
  big_sum n (λ i, f i + g i) = big_sum n f + big_sum n g.
Proof. induction n as [|n IH]; simpl; [lra | rewrite IH; lra]. Qed.

Lemma big_sum_scale (n : nat) (c : R) (f : nat → R) :
  big_sum n (λ i, c * f i) = c * big_sum n f.
Proof. induction n as [|n IH]; simpl; [lra | rewrite IH; lra]. Qed.

Lemma big_sum_swap (n m : nat) (f : nat → nat → R) :
  big_sum n (λ i, big_sum m (λ j, f i j))
  = big_sum m (λ j, big_sum n (λ i, f i j)).
Proof.
  induction n as [|n IH]; simpl.
  - symmetry. by apply big_sum_zero.
  - by rewrite IH, big_sum_plus.
Qed.

End BigSum.

Section RegularizationProofs.
Import Regularization.
Variable n : nat.
Variable weight : nat → R.
Variable W : nat → nat → R.

Abbreviation pairing := (pairing_with_one n weight).
Abbreviation W_reg := (regularized weight W).
Abbreviation area := (pairing_with_one n weight one).

(** The rank-one operator applied to [w]: the weights scaled by the pairing
    of [w] with one. *)
Lemma apply_rank_one (w : nat → R) (i : nat) :
  apply n (rank_one weight) w i = weight i * pairing w.
Proof.
  unfold apply, rank_one, pairing_with_one.
  rewrite <- big_sum_scale. apply big_sum_ext. intros j _. ring.
Qed.

Lemma apply_add (A B : nat → nat → R) (w : nat → R) (i : nat) :
  apply n (add A B) w i = apply n A w i + apply n B w i.
Proof.
  unfold apply, add. rewrite <- big_sum_plus.
  apply big_sum_ext. intros j _. ring.
Qed.

Lemma apply_regularized (w : nat → R) (i : nat) :
  apply n W_reg w i = apply n W w i + weight i * pairing w.
Proof. unfold regularized. by rewrite apply_add, apply_rank_one. Qed.

(** The weak form of the rank-one operator is the product of the two
    pairings with one. *)
Lemma weak_form_rank_one (w v : nat → R) :
  weak_form n (rank_one weight) w v = pairing w * pairing v.
Proof.
  unfold weak_form.
  transitivity (big_sum n (λ i, pairing w * (v i * weight i))).
  - apply big_sum_ext. intros i _. rewrite apply_rank_one. ring.
  - by rewrite big_sum_scale.
Qed.

Lemma weak_form_regularized (w v : nat → R) :
  weak_form n W_reg w v = weak_form n W w v + pairing w * pairing v.
Proof.
  rewrite <- weak_form_rank_one. unfold weak_form.
  rewrite <- big_sum_plus. apply big_sum_ext. intros i _.
  rewrite apply_regularized, apply_rank_one. ring.
Qed.

Hypothesis W_symmetric : symmetric n W.
Hypothesis W_null_space : null_space_is_constants n W.
Hypothesis area_positive : 0 < area.

Lemma one_constant : constant n one.
Proof. by exists 1. Qed.

Lemma W_one_vanishes : vanishes n (apply n W one).
Proof. apply W_null_space, one_constant. Qed.

(** Summed over its entries, [W w] gives zero: the columns of a symmetric
    [W] that annihilates the constants add up to zero. *)
Lemma sum_apply_W (w : nat → R) : big_sum n (apply n W w) = 0.
Proof.
  unfold apply. rewrite big_sum_swap. apply big_sum_zero. intros j Hj.
  rewrite (big_sum_ext n _ (λ i, w j * (W j i * one i))).
  - rewrite big_sum_scale. fold (apply n W one j).
    rewrite (W_one_vanishes j Hj). lra.
  - intros i Hi. rewrite (W_symmetric i j Hi Hj). unfold one. ring.
Qed.

Lemma pairing_constant (w : nat → R) (c : R) :
  (∀ i, (i < n)%nat → w i = c) → pairing w = c * area.
Proof.
  intros Hw. unfold pairing_with_one. rewrite <- big_sum_scale.
  apply big_sum_ext. intros i Hi. rewrite (Hw i Hi). unfold one. ring.
Qed.

(** C6. The regularized operator is the sum of [W] and the rank-one operator
    whose weak form is the product of the pairings with one.  [W] applied to
    the constant one vanishes, the regularized operator applied to it does
    not, and the regularized operator is injective. *)
Theorem regularized_hypersingular_injective :
  (∀ i j, W_reg i j = W i j + rank_one weight i j) ∧
  (∀ w v, weak_form n (rank_one weight) w v = pairing w * pairing v) ∧
  (∀ w v, weak_form n W_reg w v = weak_form n W w v + pairing w * pairing v) ∧
  vanishes n (apply n W one) ∧
  ¬ vanishes n (apply n W_reg one) ∧
  (∀ w, vanishes n (apply n W_reg w) → vanishes n w).
Proof.
  split; [done|]. split; [exact weak_form_rank_one|].
  split; [exact weak_form_regularized|].
  split; [exact W_one_vanishes|]. split.
  - intros Hzero. apply (Rlt_irrefl 0).
    replace 0 with area at 2; [exact area_positive|].
    unfold pairing_with_one. apply big_sum_zero. intros i Hi.
    pose proof (Hzero i Hi) as Hi0.
    rewrite apply_regularized, (W_one_vanishes i Hi), Rplus_0_l in Hi0.
    apply Rmult_integral in Hi0 as [Hi0|Hi0]; [rewrite Hi0; ring|].
    pose proof area_positive. lra.
  - intros w Hw.
    assert (Hpair : pairing w = 0).
    { assert (Hsum : big_sum n (apply n W_reg w) = 0).
      { apply big_sum_zero. exact Hw. }
      rewrite (big_sum_ext n _ (λ i, apply n W w i + pairing w * (one i * weight i)))
        in Hsum by (intros i _; rewrite apply_regularized; unfold one; ring).
      rewrite big_sum_plus, sum_apply_W, big_sum_scale, Rplus_0_l in Hsum.
      apply Rmult_integral in Hsum as [Hsum|Hsum]; [done|].
      pose proof area_positive. unfold pairing_with_one in *. lra. }
    assert (HW : vanishes n (apply n W w)).
    { intros i Hi. pose proof (Hw i Hi) as Hi0.
      rewrite apply_regularized, Hpair in Hi0. lra. }
    apply W_null_space in HW as [c Hc].
    rewrite (pairing_constant w c Hc) in Hpair.
    apply Rmult_integral in Hpair as [Hc0|Harea].
    + intros i Hi. by rewrite (Hc i Hi).
    + pose proof area_positive. lra.
Qed.

End RegularizationProofs.

(** The null space of the two-by-two operator is the constants. *)
Lemma two_dof_W_null_space :
  Regularization.null_space_is_constants 2 two_dof_W.
Proof.
  intros w. unfold Regularization.vanishes, Regularization.constant,
    Regularization.apply, two_dof_W. simpl. split.
  - intros Hzero. exists (w 0%nat). intros i Hi.
    destruct i as [|[|i]]; [done| |lia].
    pose proof (Hzero 0%nat ltac:(lia)) as H0.
    rewrite decide_True, decide_False in H0 by done. lra.
  - intros [c Hc] i Hi. rewrite (Hc 0%nat), (Hc 1%nat) by lia.
    destruct i as [|[|i]]; [| |lia].
    + rewrite decide_True, decide_False by done. lra.
    + rewrite decide_False, decide_True by done. lra.
Qed.

(** The regularization of the two-by-two operator. *)
Lemma regularized_hypersingular_injective_witness :
  let W_reg := Regularization.regularized unit_weight two_dof_W in
  let pairing := Regularization.pairing_with_one 2 unit_weight in
  (∀ i j, W_reg i j
          = two_dof_W i j + Regularization.rank_one unit_weight i j) ∧
  (∀ w v, Regularization.weak_form 2
            (Regularization.rank_one unit_weight) w v
          = pairing w * pairing v) ∧
  (∀ w v, Regularization.weak_form 2 W_reg w v
          = Regularization.weak_form 2 two_dof_W w v
            + pairing w * pairing v) ∧
  Regularization.vanishes 2
    (Regularization.apply 2 two_dof_W Regularization.one) ∧
  ¬ Regularization.vanishes 2
      (Regularization.apply 2 W_reg Regularization.one) ∧
  (∀ w, Regularization.vanishes 2 (Regularization.apply 2 W_reg w) →
        Regularization.vanishes 2 w).
Proof.
  apply (regularized_hypersingular_injective 2 unit_weight two_dof_W).
  - intros i j _ _. unfold two_dof_W. repeat case_decide; congruence.
  - exact two_dof_W_null_space.
  - unfold Regularization.pairing_with_one, Regularization.one, unit_weight.
    simpl. lra.
Defined.

(** * Further properties of the notebook's code *)

(** ** The diameter: exceptions *)

Lemma column_is_Some_iff {A} (a : list (list A)) (j : nat) :
  is_Some (Numpy.column a j) ↔ Forall (λ row, j < length row)%nat a.
Proof.
  unfold Numpy.column. rewrite mapM_is_Some. apply Forall_proper; [|done].
  intros row. simpl. apply lookup_lt_is_Some.
Qed.

Lemma column_length {A} (a : list (list A)) (j : nat) (c : list A) :
  Numpy.column a j = Some c → length c = length a.
Proof.
  unfold Numpy.column. intros Hc. apply mapM_Some in Hc.
  symmetry. by eapply Forall2_length.
Qed.

(** X1. For a corner array with at least one row, [diameter] raises (an
    IndexError from a slice) exactly when a row has fewer than three
    entries. *)
Theorem diameter_returns_iff_three_columns {F : Type} `{Scalar F}
    (api : Bempp F) (element : Entity api) :
  corners api element ≠ [] →
  is_Some (diameter api element) ↔
  Forall (λ row, 3 <= length row)%nat (corners api element).
Proof.
  intros _. split.
  - intros [d Hd]. unfold diameter in Hd.
    apply bind_Some in Hd as (c0 & _ & Hd).
    apply bind_Some in Hd as (c1 & _ & Hd).
    apply bind_Some in Hd as (c2 & Hc2 & _).
    assert (Hsome : is_Some (Numpy.column (corners api element) 2)) by eauto.
    apply column_is_Some_iff in Hsome.
    eapply Forall_impl; [exact Hsome|]. simpl. lia.
  - intros Hrows.
    assert (Hcol : ∀ j, (j < 3)%nat →
              is_Some (Numpy.column (corners api element) j)).
    { intros j Hj. apply column_is_Some_iff.
      eapply Forall_impl; [exact Hrows|]. simpl. lia. }
    destruct (Hcol 0%nat) as [c0 H0]; [lia|].
    destruct (Hcol 1%nat) as [c1 H1]; [lia|].
    destruct (Hcol 2%nat) as [c2 H2]; [lia|].
    unfold diameter. rewrite H0, H1, H2. simpl. eauto.
Qed.

(** A corner array with two columns only: the third slice raises. *)
Lemma diameter_returns_iff_three_columns_witness :
  is_Some (diameter (F := float) Stub.api
             (0%nat, [[0; 3]; [0; 0]; [0; 0]]%float)) ↔
  Forall (λ row, 3 <= length row)%nat
    (corners (F := float) Stub.api (0%nat, [[0; 3]; [0; 0]; [0; 0]]%float)).
Proof.
  apply (diameter_returns_iff_three_columns (F := float) Stub.api
           (0%nat, [[0; 3]; [0; 0]; [0; 0]]%float)).
  discriminate.
Defined.

(** ** The diameter: geometry *)

Lemma diameter_of_corner_columns (api : Bempp R) (element : Entity api)
    (c0 c1 c2 : list R) :
  corner api element 0 = Some c0 →
  corner api element 1 = Some c1 →
  corner api element 2 = Some c2 →
  diameter api element = Some (max_pairwise_distance c0 c1 c2).
Proof.
  unfold corner, diameter. intros -> -> ->.
  cbn [mbind option_bind Numpy.max foldl f_maximum R_scalar].
  rewrite !norm_vsub_distance. unfold max_pairwise_distance.
  by rewrite Rmax_assoc.
Qed.

Lemma diameter_inv (api : Bempp R) (element : Entity api) (diam : R) :
  diameter api element = Some diam →
  ∃ c0 c1 c2,
    corner api element 0 = Some c0 ∧
    corner api element 1 = Some c1 ∧
    corner api element 2 = Some c2 ∧
    length c0 = length c1 ∧ length c0 = length c2 ∧
    diam = max_pairwise_distance c0 c1 c2.
Proof.
  intros Hdiam. pose proof Hdiam as Hd. unfold diameter in Hd.
  apply bind_Some in Hd as (c0 & H0 & Hd).
  apply bind_Some in Hd as (c1 & H1 & Hd).
  apply bind_Some in Hd as (c2 & H2 & _).
  exists c0, c1, c2.
  rewrite (diameter_of_corner_columns api element c0 c1 c2 H0 H1 H2)
    in Hdiam.
  injection Hdiam as <-.
  rewrite (column_length _ _ _ H0), (column_length _ _ _ H1),
    (column_length _ _ _ H2).
  done.
Qed.

Lemma sum_squares_nonneg (p q : list R) :
  0 <= sum_R (zip_with (λ a b, (a - b) ^ 2) p q).
Proof.
  apply sum_R_nonneg. revert q.
  induction p as [|a p IH]; intros [|b q]; simpl; try by constructor.
  constructor; [apply pow2_ge_0 | apply IH].
Qed.

Lemma euclidean_distance_nonneg (p q : list R) : 0 <= euclidean_distance p q.
Proof. apply sqrt_pos. Qed.

Lemma euclidean_distance_sym (p q : list R) :
  euclidean_distance p q = euclidean_distance q p.
Proof.
  unfold euclidean_distance. do 2 f_equal. revert q.
  induction p as [|a p IH]; intros [|b q]; simpl; try done.
  rewrite IH. f_equal. ring.
Qed.

Lemma euclidean_distance_same (p : list R) : euclidean_distance p p = 0.
Proof.
  unfold euclidean_distance. rewrite <- sqrt_0. f_equal.
  induction p as [|a p IH]; [done|].
  cbn [zip_with]. rewrite sum_R_cons, IH. ring.
Qed.

Lemma euclidean_distance_zero (p q : list R) :
  length p = length q → euclidean_distance p q = 0 → p = q.
Proof.
  unfold euclidean_distance. intros Hlen Hzero.
  apply sqrt_eq_0 in Hzero; [|apply sum_squares_nonneg].
  revert q Hlen Hzero.
  induction p as [|a p IH]; intros [|b q] Hlen Hzero; try done.
  cbn [zip_with] in Hzero. rewrite sum_R_cons in Hzero.
  pose proof (sum_squares_nonneg p q). pose proof (pow2_ge_0 (a - b)).
  assert (Hab : (a - b) ^ 2 = 0) by lra.
  assert (Hrest : sum_R (zip_with (λ a b, (a - b) ^ 2) p q) = 0) by lra.
  f_equal.
  - assert (a - b = 0); [|lra].
    apply Rsqr_eq_0. unfold Rsqr. simpl in Hab. lra.
  - apply IH; [by injection Hlen | done].
Qed.

Lemma max_pairwise_distance_bounds (c0 c1 c2 : list R) :
  euclidean_distance c0 c1 <= max_pairwise_distance c0 c1 c2 ∧
  euclidean_distance c0 c2 <= max_pairwise_distance c0 c1 c2 ∧
  euclidean_distance c1 c2 <= max_pairwise_distance c0 c1 c2.
Proof.
  unfold max_pairwise_distance. repeat split.
  - apply Rmax_l.
  - etrans; [apply Rmax_l | apply Rmax_r].
  - etrans; [apply Rmax_r | apply Rmax_r].
Qed.

(** X2. The diameter is not negative and no two corners of the element are
    further apart than the diameter. *)
Theorem diameter_bounds_corner_distances (api : Bempp R)
    (element : Entity api) (diam : R) (i j : nat) (p q : list R) :
  diameter api element = Some diam →
  (i < 3)%nat → (j < 3)%nat →
  corner api element i = Some p →
  corner api element j = Some q →
  0 <= euclidean_distance p q <= diam.
Proof.
  intros Hdiam Hi Hj Hp Hq.
  destruct (diameter_inv api element diam Hdiam)
    as (c0 & c1 & c2 & H0 & H1 & H2 & _ & _ & ->).
  split; [apply euclidean_distance_nonneg|].
  destruct (max_pairwise_distance_bounds c0 c1 c2) as (H01 & H02 & H12).
  pose proof (euclidean_distance_nonneg c0 c1) as Hpos.
  assert (Hcases : ∀ k r, (k < 3)%nat → corner api element k = Some r →
            r = c0 ∨ r = c1 ∨ r = c2).
  { intros k r Hk Hr. destruct k as [|[|[|k]]]; [| | |lia];
      [left | right; left | right; right]; congruence. }
  destruct (Hcases i p Hi Hp) as [->|[->| ->]];
    destruct (Hcases j q Hj Hq) as [->|[->| ->]];
    rewrite ?euclidean_distance_same; try done; try lra;
    rewrite euclidean_distance_sym; done.
Qed.

(** The triangle with corners (0,0,0), (3,0,0) and (0,4,0): its corners 1
    and 2. *)
Lemma diameter_bounds_corner_distances_witness :
  0 <= euclidean_distance [3; 0; 0] [0; 4; 0]
    <= max_pairwise_distance [0; 0; 0] [3; 0; 0] [0; 4; 0].
Proof.
  apply (diameter_bounds_corner_distances Stub.api
           (0%nat, Stub.triangle345) _ 1 2).
  - by apply diameter_of_corner_columns.
  - lia.
  - lia.
  - reflexivity.
  - reflexivity.
Defined.

(** X3. The diameter is zero exactly when the three corners of the element
    coincide. *)
Theorem diameter_zero_iff_corners_coincide (api : Bempp R)
    (element : Entity api) (diam : R) (c0 c1 c2 : list R) :
  diameter api element = Some diam →
  corner api element 0 = Some c0 →
  corner api element 1 = Some c1 →
  corner api element 2 = Some c2 →
  diam = 0 ↔ c0 = c1 ∧ c0 = c2.
Proof.
  intros Hdiam H0 H1 H2.
  destruct (diameter_inv api element diam Hdiam)
    as (c0' & c1' & c2' & H0' & H1' & H2' & Hl1 & Hl2 & ->).
  rewrite H0 in H0'. rewrite H1 in H1'. rewrite H2 in H2'.
  injection H0' as <-. injection H1' as <-. injection H2' as <-.
  destruct (max_pairwise_distance_bounds c0 c1 c2) as (H01 & H02 & _).
  pose proof (euclidean_distance_nonneg c0 c1).
  pose proof (euclidean_distance_nonneg c0 c2).
  split.
  - intros Hzero. split; apply euclidean_distance_zero; try done; lra.
  - intros [<- <-]. unfold max_pairwise_distance.
    rewrite euclidean_distance_same.
    rewrite (Rmax_left 0 0) by lra. by rewrite Rmax_left by lra.
Qed.

(** The triangle with corners (0,0,0), (3,0,0) and (0,4,0). *)
Lemma diameter_zero_iff_corners_coincide_witness :
  max_pairwise_distance [0; 0; 0] [3; 0; 0] [0; 4; 0] = 0 ↔
  [0; 0; 0] = [3; 0; 0] ∧ [0; 0; 0] = [0; 4; 0].
Proof.
  apply (diameter_zero_iff_corners_coincide Stub.api
           (0%nat, Stub.triangle345)).
  - by apply diameter_of_corner_columns.
  - reflexivity.
  - reflexivity.
  - reflexivity.
Defined.

Lemma diameter_as_corners (api : Bempp R) (element : Entity api) :
  diameter api element
  = diameter_of_corners (corner api element 0) (corner api element 1)
      (corner api element 2).
Proof.
  unfold diameter_of_corners.
  destruct (corner api element 0) as [c0|] eqn:H0;
    [|by unfold diameter; unfold corner in H0; rewrite H0].
  destruct (corner api element 1) as [c1|] eqn:H1;
    [|by unfold diameter; unfold corner in H0, H1; rewrite H0, H1].
  destruct (corner api element 2) as [c2|] eqn:H2;
    [|by unfold diameter; unfold corner in H0, H1, H2; rewrite H0, H1, H2].
  by apply diameter_of_corner_columns.
Qed.

Lemma max_pairwise_distance_swap_01 (c0 c1 c2 : list R) :
  max_pairwise_distance c1 c0 c2 = max_pairwise_distance c0 c1 c2.
Proof.
  unfold max_pairwise_distance.
  rewrite (euclidean_distance_sym c1 c0).
  by rewrite (Rmax_comm (euclidean_distance c1 c2)).
Qed.

Lemma max_pairwise_distance_swap_12 (c0 c1 c2 : list R) :
  max_pairwise_distance c0 c2 c1 = max_pairwise_distance c0 c1 c2.
Proof.
  unfold max_pairwise_distance.
  rewrite (euclidean_distance_sym c2 c1).
  by rewrite !Rmax_assoc, (Rmax_comm (euclidean_distance c0 c2)).
Qed.

Lemma diameter_of_corners_swap_01 (a b c : option (list R)) :
  diameter_of_corners b a c = diameter_of_corners a b c.
Proof.
  destruct a, b, c; simpl; try done.
  by rewrite max_pairwise_distance_swap_01.
Qed.

Lemma diameter_of_corners_swap_12 (a b c : option (list R)) :
  diameter_of_corners a c b = diameter_of_corners a b c.
Proof.
  destruct a, b, c; simpl; try done.
  by rewrite max_pairwise_distance_swap_12.
Qed.

Lemma diameter_of_corners_Permutation (l l' : list (option (list R))) :
  l ≡ₚ l' →
  ∀ a b c a' b' c',
    l = [a; b; c] → l' = [a'; b'; c'] →
    diameter_of_corners a' b' c' = diameter_of_corners a b c.
Proof.
  induction 1 as [|x l1 l2 Hperm _|x y l1|l1 l2 l3 H12 IH12 H23 IH23];
    intros a b c a' b' c' Hl Hl'.
  - done.
  - injection Hl as -> ->. injection Hl' as -> ->.
    apply Permutation_length_2_inv in Hperm as [Heq|Heq];
      injection Heq as -> ->; [done|].
    apply diameter_of_corners_swap_12.
  - injection Hl as -> -> ->. injection Hl' as -> -> ->.
    apply diameter_of_corners_swap_01.
  - subst l1 l3. pose proof (Permutation_length H12) as Hlen.
    destruct l2 as [|a2 [|b2 [|c2 [|]]]]; try done.
    rewrite (IH23 a2 b2 c2 a' b' c'), (IH12 a b c a2 b2 c2); done.
Qed.

(** X4. The diameter does not depend on the order in which the element lists
    its corners: two elements with the same three corners, in any order,
    have the same diameter (or both raise). *)
Theorem diameter_corner_order (api : Bempp R) (element element' : Entity api) :
  [corner api element' 0; corner api element' 1; corner api element' 2]
  ≡ₚ [corner api element 0; corner api element 1; corner api element 2] →
  diameter api element' = diameter api element.
Proof.
  intros Hperm. rewrite !diameter_as_corners. symmetry in Hperm.
  by eapply diameter_of_corners_Permutation.
Qed.

(** The triangle (0,0,0), (3,0,0), (0,4,0) with its corners listed as
    (0,4,0), (0,0,0), (3,0,0). *)
Lemma diameter_corner_order_witness :
  diameter Stub.api (0%nat, [[0; 0; 3]; [4; 0; 0]; [0; 0; 0]])
  = diameter Stub.api (0%nat, Stub.triangle345).
Proof.
  apply (diameter_corner_order Stub.api
           (0%nat, Stub.triangle345)
           (0%nat, [[0; 0; 3]; [4; 0; 0]; [0; 0; 0]])).
  change ([Some [0; 4; 0]; Some [0; 0; 0]; Some [3; 0; 0]]
          ≡ₚ [Some [0; 0; 0]; Some [3; 0; 0]; Some [0; 4; 0]]).
  by rewrite (Permutation_cons_append _ (Some [0; 4; 0])).
Defined.

(** ** The diameter under scaling and translation *)

Lemma column_cons {A} (row : list A) (a : list (list A)) (j : nat) :
  Numpy.column (row :: a) j
  = x ← row !! j; c ← Numpy.column a j; Some (x :: c).
Proof. reflexivity. Qed.

Lemma column_similar (s : R) (t : list R) (a : list (list R)) (j : nat) :
  length t = length a →
  Numpy.column (similar_corners s t a) j
  = zip_with (λ tk x, s * x + tk) t <$> Numpy.column a j.
Proof.
  unfold similar_corners. revert t.
  induction a as [|row a IH]; intros [|tk t] Hlen; try done.
  cbn [zip_with]. rewrite !column_cons, list_lookup_fmap.
  rewrite IH by (by injection Hlen).
  destruct (row !! j) as [x|]; [|done]. simpl.
  by destruct (Numpy.column a j).
Qed.

Lemma sum_squares_similar (s : R) (t p q : list R) :
  length t = length p → length p = length q →
  sum_R (zip_with (λ a b, (a - b) ^ 2)
           (zip_with (λ tk x, s * x + tk) t p)
           (zip_with (λ tk x, s * x + tk) t q))
  = s ^ 2 * sum_R (zip_with (λ a b, (a - b) ^ 2) p q).
Proof.
  revert p q.
  induction t as [|tk t IH]; intros [|a p] [|b q] Hp Hq; try done.
  - cbn [zip_with]. rewrite sum_R_nil. ring.
  - cbn [zip_with]. rewrite !sum_R_cons.
    rewrite IH by (simpl in Hp, Hq; lia). ring.
Qed.

Lemma euclidean_distance_similar (s : R) (t p q : list R) :
  length t = length p → length p = length q →
  euclidean_distance (zip_with (λ tk x, s * x + tk) t p)
    (zip_with (λ tk x, s * x + tk) t q)
  = Rabs s * euclidean_distance p q.
Proof.
  intros Hp Hq. unfold euclidean_distance.
  rewrite sum_squares_similar by done.
  rewrite sqrt_mult_alt by apply pow2_ge_0.
  f_equal. rewrite <- Rsqr_pow2. apply sqrt_Rsqr_abs.
Qed.

(** X5. Scaling an element by [s] and moving it by a vector [t] scales its
    diameter by [|s|]: the diameter does not depend on where the element
    lies. *)
Theorem diameter_similar (api : Bempp R) (element element' : Entity api)
    (s : R) (t : list R) :
  length t = length (corners api element) →
  corners api element' = similar_corners s t (corners api element) →
  diameter api element' = (λ d, Rabs s * d) <$> diameter api element.
Proof.
  intros Hlen Hcorners. rewrite !diameter_as_corners. unfold corner.
  rewrite Hcorners, !column_similar by done.
  destruct (Numpy.column (corners api element) 0) as [c0|] eqn:H0; [|done].
  destruct (Numpy.column (corners api element) 1) as [c1|] eqn:H1; [|done].
  destruct (Numpy.column (corners api element) 2) as [c2|] eqn:H2; [|done].
  simpl. f_equal. unfold max_pairwise_distance.
  apply column_length in H0, H1, H2.
  rewrite !euclidean_distance_similar by congruence.
  by rewrite !RmaxRmult by apply Rabs_pos.
Qed.

(** The triangle (0,0,0), (3,0,0), (0,4,0) doubled and moved by (1,1,1). *)
Lemma diameter_similar_witness :
  diameter Stub.api
    (0%nat, similar_corners 2 [1; 1; 1] Stub.triangle345)
  = (λ d, Rabs 2 * d) <$> diameter Stub.api (0%nat, Stub.triangle345).
Proof.
  apply (diameter_similar Stub.api (0%nat, Stub.triangle345)
           (0%nat, similar_corners 2 [1; 1; 1] Stub.triangle345)
           2 [1; 1; 1]); reflexivity.
Defined.

(** ** The first loop of cell 19: exceptions and repeated indices *)

Section BaryLoopMore.
Context {F : Type} `{Scalar F} (api : Bempp F).

Lemma set_inv {A} (a a' : list A) (i : nat) (v : A) :
  Numpy.set a i v = Some a' → (i < length a)%nat ∧ a' = <[i := v]> a.
Proof.
  unfold Numpy.set. destruct (decide (i < length a)%nat); [|done].
  by intros [= <-].
Qed.

Lemma bary_body_inv (bary_grid : Grid api) (f : GridFunction api)
    (T : Entity api) (squares squares' : list F) :
  bary_body api bary_grid f T squares = Some squares' →
  ∃ v, local_error_squared api f T = Some v ∧
       (entity_index api bary_grid T < length squares)%nat ∧
       squares' = <[entity_index api bary_grid T := v]> squares.
Proof.
  unfold bary_body. intros Hbody.
  apply bind_Some in Hbody as (v & Hv & Hset).
  apply set_inv in Hset as [Hlt ->]. eauto.
Qed.

Lemma local_error_squared_is_Some (f : GridFunction api) (T : Entity api) :
  is_Some (local_error_squared api f T) ↔ is_Some (diameter api T).
Proof.
  unfold local_error_squared. destruct (diameter api T); simpl; split; eauto.
Qed.

(** X6. The first loop runs to its end exactly when every element of the
    refinement has an index inside the array and a diameter; otherwise it
    raises (an IndexError from the assignment or from [diameter]). *)
Theorem bary_loop_returns_iff (bary_grid : Grid api) (f : GridFunction api)
    (squares : list F) :
  is_Some (bary_loop api bary_grid f squares) ↔
  Forall (λ T, (entity_index api bary_grid T < length squares)%nat ∧
               is_Some (diameter api T))
    (entity_iterator api bary_grid).
Proof.
  rewrite (eq_refl : bary_loop api bary_grid f squares
                     = for_each (bary_body api bary_grid f)
                         (entity_iterator api bary_grid) squares).
  generalize (entity_iterator api bary_grid). intros elements.
  revert squares. induction elements as [|T rest IH]; intros squares.
  - simpl. split; [by constructor | eauto].
  - cbn [for_each]. rewrite Forall_cons. split.
    + intros [squares' Hrun].
      apply bind_Some in Hrun as (s1 & Hbody & Hrest).
      apply bary_body_inv in Hbody as (v & Hv & Hlt & ->).
      split.
      * split; [exact Hlt|].
        apply (proj1 (local_error_squared_is_Some f T)). eauto.
      * assert (Hsome : is_Some
                  (for_each (bary_body api bary_grid f) rest
                     (<[entity_index api bary_grid T := v]> squares)))
          by eauto.
        apply IH in Hsome. eapply Forall_impl; [exact Hsome|].
        intros T'. simpl. by rewrite length_insert.
    + intros [[Hlt Hdiam] Hrest].
      apply (proj2 (local_error_squared_is_Some f T)) in Hdiam as [v Hv].
      assert (Hbody : bary_body api bary_grid f T squares
                      = Some (<[entity_index api bary_grid T := v]> squares)).
      { unfold bary_body. rewrite Hv. simpl. by apply set_Some. }
      rewrite Hbody. simpl. apply IH.
      eapply Forall_impl; [exact Hrest|].
      intros T'. simpl. by rewrite length_insert.
Qed.

Lemma last_filter_cons {A} (P : A → Prop) `{∀ x, Decision (P x)}
    (x : A) (l : list A) :
  last (filter P (x :: l))
  = match last (filter P l) with
    | Some y => Some y
    | None => if decide (P x) then Some x else None
    end.
Proof.
  rewrite filter_cons. destruct (decide (P x)) as [Hx|Hx].
  - destruct (filter P l) as [|y l'] eqn:Hl; [done|].
    rewrite last_cons. by destruct (last (y :: l')).
  - by destruct (last (filter P l)).
Qed.

(** X7. When the first loop has run, the array has the length it had, an
    entry whose index no element has is as it was, and an entry whose index
    several elements share holds the squared indicator of the last of them in
    the order of the iteration. *)
Theorem bary_loop_last_write (bary_grid : Grid api) (f : GridFunction api)
    (squares squares' : list F) :
  bary_loop api bary_grid f squares = Some squares' →
  length squares' = length squares ∧
  ∀ i, squares' !! i
       = match last (filter (λ T, entity_index api bary_grid T = i)
                       (entity_iterator api bary_grid)) with
         | Some T => local_error_squared api f T
         | None => squares !! i
         end.
Proof.
  rewrite (eq_refl : bary_loop api bary_grid f squares
                     = for_each (bary_body api bary_grid f)
                         (entity_iterator api bary_grid) squares).
  generalize (entity_iterator api bary_grid). intros elements.
  revert squares. induction elements as [|T rest IH]; intros squares Hrun.
  - injection Hrun as <-. done.
  - cbn [for_each] in Hrun.
    apply bind_Some in Hrun as (s1 & Hbody & Hrest).
    apply bary_body_inv in Hbody as (v & Hv & Hlt & ->).
    apply IH in Hrest as [Hlen Hval].
    split; [by rewrite Hlen, length_insert|].
    intros i. rewrite (Hval i), last_filter_cons.
    destruct (last (filter _ rest)) as [T'|]; [done|].
    destruct (decide (entity_index api bary_grid T = i)) as [<-|Hne].
    + rewrite Hv. by apply list_lookup_insert_eq.
    + by apply list_lookup_insert_ne.
Qed.

End BaryLoopMore.

(** The first loop on the refinement of the unit square. *)
Lemma bary_loop_last_write_witness :
  let api := Stub.api (F := float) in
  let bary_grid := barycentric_grid api Stub.float_square in
  let f := [1; 2; 3]%float in
  ∃ squares',
    bary_loop api bary_grid f (Numpy.zeros 12) = Some squares' ∧
    length squares' = length (Numpy.zeros (F := float) 12) ∧
    ∀ i, squares' !! i
         = match last (filter (λ T, entity_index api bary_grid T = i)
                         (entity_iterator api bary_grid)) with
           | Some T => local_error_squared api f T
           | None => Numpy.zeros 12 !! i
           end.
Proof.
  intros api bary_grid f.
  assert (Hrun : ∃ squares',
            bary_loop api bary_grid f (Numpy.zeros 12) = Some squares').
  { vm_compute. eauto. }
  destruct Hrun as [squares' Hrun]. exists squares'.
  split; [exact Hrun|].
  exact (bary_loop_last_write api bary_grid f (Numpy.zeros 12) squares' Hrun).
Defined.

(** ** The second loop of cell 19: exceptions *)

Lemma for_each_inv {A S} (body : A → S → option S)
    (P : S → Prop) (Q : A → Prop) (xs : list A) (s s' : S) :
  (∀ x s s', P s → body x s = Some s' → P s' ∧ Q x) →
  P s → for_each body xs s = Some s' → P s' ∧ Forall Q xs.
Proof.
  intros Hbody. revert s. induction xs as [|x xs IH]; intros s Hs Hrun.
  - injection Hrun as <-. by split.
  - cbn [for_each] in Hrun. apply bind_Some in Hrun as (s1 & Hx & Hrun).
    destruct (Hbody x s s1 Hs Hx) as [Hs1 Hq].
    destruct (IH s1 Hs1 Hrun) as [Hs' Hqs]. split; [done|].
    by constructor.
Qed.

Lemma for_each_skip {A S} (body : A → S → option S) (xs : list A) (s : S) :
  (∀ x s, body x s = Some s) → for_each body xs s = Some s.
Proof.
  intros Hbody. induction xs as [|x xs IH]; [done|].
  cbn [for_each]. by rewrite Hbody.
Qed.

Section SumLoopMore.
Context {F : Type} `{Scalar F}.
Variable bary_map : list (list nat).
Variable squares : list F.

Lemma inner_body_inv (m n : nat) (local_errors local_errors' : list F) :
  inner_body bary_map squares m n local_errors = Some local_errors' →
  length local_errors' = length local_errors ∧
  step_in_range bary_map (length squares) (length local_errors) m n.
Proof.
  unfold inner_body, Numpy.add_at, Numpy.get, Numpy.set. intros Hbody.
  apply bind_Some in Hbody as (i & Hi & Hbody).
  apply bind_Some in Hbody as (v & Hv & Hbody).
  apply bind_Some in Hbody as (old & Hold & Hbody).
  destruct (decide (m < length local_errors)%nat) as [Hm|]; [|done].
  injection Hbody as <-. split; [by rewrite length_insert|].
  split; [exact Hm|]. exists i. split; [exact Hi|].
  by eapply lookup_lt_Some.
Qed.

Lemma outer_body_inv (m : nat) (local_errors local_errors' : list F) :
  outer_body bary_map squares m local_errors = Some local_errors' →
  length local_errors' = length local_errors ∧
  Forall (step_in_range bary_map (length squares) (length local_errors) m)
    (seq 0 (Numpy.shape1 bary_map)).
Proof.
  unfold outer_body. intros Hrun.
  apply (for_each_inv _ (λ l, length l = length local_errors)
           (step_in_range bary_map (length squares) (length local_errors) m)
           _ _ _) in Hrun; [done| |done].
  intros n l l' Hl Hbody. apply inner_body_inv in Hbody as [Hlen Hstep].
  rewrite Hl in Hlen, Hstep. done.
Qed.

Lemma sum_loop_inv (local_errors local_errors' : list F) :
  sum_loop bary_map squares local_errors = Some local_errors' →
  length local_errors' = length local_errors ∧
  Forall (λ m, Forall (step_in_range bary_map (length squares)
                         (length local_errors) m)
                 (seq 0 (Numpy.shape1 bary_map)))
    (seq 0 (Numpy.shape0 bary_map)).
Proof.
  intros Hrun.
  change (for_each (outer_body bary_map squares)
            (seq 0 (Numpy.shape0 bary_map)) local_errors
          = Some local_errors') in Hrun.
  apply (for_each_inv _ (λ l, length l = length local_errors)
           (λ m, Forall (step_in_range bary_map (length squares)
                           (length local_errors) m)
                   (seq 0 (Numpy.shape1 bary_map))) _ _ _) in Hrun;
    [done| |done].
  intros m l l' Hl Hbody. apply outer_body_inv in Hbody as [Hlen Hstep].
  rewrite Hl in Hlen, Hstep. done.
Qed.

Hypothesis rows_of_one_length :
  Forall (λ row, length row = Numpy.shape1 bary_map) bary_map.

Lemma sum_loop_is_Some (entity_count : nat) :
  is_Some (sum_loop bary_map squares (Numpy.zeros entity_count)) ↔
  (Numpy.shape1 bary_map = 0%nat ∨ (length bary_map <= entity_count)%nat) ∧
  Forall (Forall (λ i, i < length squares)%nat) bary_map.
Proof.
  split.
  - intros [l' Hrun]. apply sum_loop_inv in Hrun as [_ Hsteps].
    unfold Numpy.zeros, Numpy.shape0 in Hsteps.
    rewrite length_replicate in Hsteps.
    rewrite Forall_forall in Hsteps.
    assert (Hstep : ∀ m n, (m < length bary_map)%nat →
              (n < Numpy.shape1 bary_map)%nat →
              step_in_range bary_map (length squares) entity_count m n).
    { intros m n Hm Hn.
      assert (Hm' : m ∈ seq 0 (length bary_map)) by (apply elem_of_seq; lia).
      pose proof (Hsteps m Hm') as Hrow. rewrite Forall_forall in Hrow.
      apply Hrow. apply elem_of_seq. lia. }
    split.
    + destruct (decide (Numpy.shape1 bary_map = 0%nat)) as [|Hne];
        [by left | right].
      destruct (decide (length bary_map = 0%nat)) as [->|Hrows]; [lia|].
      destruct (Hstep (length bary_map - 1)%nat 0%nat) as [Hlt _]; lia.
    + apply Forall_lookup. intros m row Hrow.
      apply Forall_lookup. intros n i Hi.
      pose proof (proj1 (Forall_lookup _ _) rows_of_one_length m row Hrow)
        as Hlen. simpl in Hlen.
      destruct (Hstep m n) as (_ & i' & Hi' & Hlt).
      * by eapply lookup_lt_Some.
      * rewrite <- Hlen. by eapply lookup_lt_Some.
      * unfold Numpy.get2 in Hi'. rewrite Hrow in Hi'. simpl in Hi'.
        rewrite Hi in Hi'. by injection Hi' as <-.
  - intros [[Hempty|Hcount] Hin].
    + change (is_Some (for_each (outer_body bary_map squares)
                         (seq 0 (Numpy.shape0 bary_map))
                         (Numpy.zeros entity_count))).
      rewrite for_each_skip; [eauto|].
      intros m l. unfold outer_body. by rewrite Hempty.
    + rewrite (sum_loop_Some bary_map squares rows_of_one_length Hin
                 entity_count Hcount). eauto.
Qed.

(** X8. For a descendant map with rows of one length, the second loop and
    the lines after it run through exactly when every entry of the map is an
    index into the array of squares and, unless the rows are empty, the map
    has no more rows than [local_errors] has entries; otherwise the loop
    raises an IndexError. *)
Theorem aggregate_returns_iff (entity_count : nat) :
  is_Some (aggregate bary_map entity_count squares) ↔
  (Numpy.shape1 bary_map = 0%nat ∨ (length bary_map <= entity_count)%nat) ∧
  Forall (Forall (λ i, i < length squares)%nat) bary_map.
Proof.
  rewrite <- sum_loop_is_Some. unfold aggregate.
  destruct (sum_loop bary_map squares (Numpy.zeros entity_count));
    simpl; [split; eauto | done].
Qed.

End SumLoopMore.

(** A map with three rows for two elements: the third row has no entry of
    [local_errors] to add to. *)
Lemma aggregate_returns_iff_witness :
  is_Some (aggregate [[0; 1]; [2; 3]; [0; 0]]%nat 2 [1; 3; 4; 5]%float) ↔
  (Numpy.shape1 [[0; 1]; [2; 3]; [0; 0]]%nat = 0%nat ∨
   (length [[0; 1]; [2; 3]; [0; 0]]%nat <= 2)%nat) ∧
  Forall (Forall (λ i, i < length [1; 3; 4; 5]%float)%nat)
    [[0; 1]; [2; 3]; [0; 0]]%nat.
Proof.
  apply (aggregate_returns_iff [[0; 1]; [2; 3]; [0; 0]]%nat
           [1; 3; 4; 5]%float).
  repeat constructor.
Defined.

(** ** The aggregated indicators and the total *)

Lemma sum_R_elem_le (xs : list R) (a : R) :
  Forall (λ b, 0 <= b) xs → a ∈ xs → a <= sum_R xs.
Proof.
  induction 1 as [|b xs Hb Hxs IH]; intros Ha.
  - by apply elem_of_nil in Ha.
  - rewrite sum_R_cons. pose proof (sum_R_nonneg xs Hxs).
    apply elem_of_cons in Ha as [->|Ha]; [lra|].
    specialize (IH Ha). lra.
Qed.

Lemma euclidean_norm_nonneg (v : list R) : 0 <= euclidean_norm v.
Proof. apply sqrt_pos. Qed.

Lemma euclidean_norm_bounds_entries (v : list R) (a : R) :
  a ∈ v → Rabs a <= euclidean_norm v.
Proof.
  intros Ha. unfold euclidean_norm.
  rewrite <- (sqrt_Rsqr_abs a). apply sqrt_le_1_alt.
  apply sum_R_elem_le.
  - apply Forall_fmap, Forall_forall. intros b _. simpl.
    apply pow2_ge_0.
  - apply list_elem_of_fmap. exists a. split; [|done].
    unfold Rsqr. ring.
Qed.

Lemma aggregate_inv {F} `{Scalar F} (bary_map : list (list nat))
    (entity_count : nat) (squares : list F) (c19 : Cell19) :
  aggregate bary_map entity_count squares = Some c19 →
  ∃ sums,
    sum_loop bary_map squares (Numpy.zeros entity_count) = Some sums ∧
    length sums = entity_count ∧
    local_errors_squared_bary c19 = squares ∧
    local_errors c19 = Numpy.sqrt sums ∧
    total_error c19 = Numpy.linalg_norm (local_errors c19) ∧
    printed_total_error c19 = total_error c19 ∧
    capacity_error c19 = f_pow (total_error c19) 2.
Proof.
  unfold aggregate. intros Hrun.
  apply bind_Some in Hrun as (sums & Hsums & Hrun). injection Hrun as <-.
  exists sums. simpl. repeat split; try done.
  apply sum_loop_inv in Hsums as [-> _].
  unfold Numpy.zeros. by rewrite length_replicate.
Qed.

(** X9. Whenever the aggregation runs through, it yields one indicator per
    element of the grid, none of them negative and none larger than the
    total, which is not negative either; the number printed as the total is
    the total. *)
Theorem local_errors_bounded_by_total (bary_map : list (list nat))
    (entity_count : nat) (squares : list R) (c19 : Cell19) :
  aggregate bary_map entity_count squares = Some c19 →
  length (local_errors c19) = entity_count ∧
  Forall (λ e, 0 <= e <= total_error c19) (local_errors c19) ∧
  0 <= total_error c19 ∧
  printed_total_error c19 = total_error c19.
Proof.
  intros Hrun.
  apply aggregate_inv in Hrun
    as (sums & _ & Hlen & _ & Hlocal & Htotal & Hprinted & _).
  assert (Hnorm : total_error c19 = euclidean_norm (local_errors c19)).
  { by rewrite Htotal, linalg_norm_euclidean. }
  split; [|split; [|split]].
  - rewrite Hlocal. unfold Numpy.sqrt. by rewrite length_fmap.
  - apply Forall_forall. intros e He. split.
    + rewrite Hlocal in He. unfold Numpy.sqrt in He.
      apply list_elem_of_fmap in He as (a & -> & _). apply sqrt_pos.
    + rewrite Hnorm. etrans; [apply Rle_abs|].
      by apply euclidean_norm_bounds_entries.
  - rewrite Hnorm. apply euclidean_norm_nonneg.
  - exact Hprinted.
Qed.

(** Two elements with two descendants each. *)
Lemma local_errors_bounded_by_total_witness :
  ∃ c19,
    aggregate [[0; 1]; [2; 3]]%nat 2 [1; 3; 4; 5] = Some c19 ∧
    length (local_errors c19) = 2%nat ∧
    Forall (λ e, 0 <= e <= total_error c19) (local_errors c19) ∧
    0 <= total_error c19 ∧
    printed_total_error c19 = total_error c19.
Proof.
  assert (Hrun : ∃ c19,
            aggregate [[0; 1]; [2; 3]]%nat 2 [1; 3; 4; 5] = Some c19).
  { eexists. reflexivity. }
  destruct Hrun as [c19 Hrun]. exists c19. split; [exact Hrun|].
  exact (local_errors_bounded_by_total _ _ _ c19 Hrun).
Defined.

(** ** The order of the descendants *)

Lemma sum_R_Permutation (xs ys : list R) : xs ≡ₚ ys → sum_R xs = sum_R ys.
Proof.
  induction 1 as [|a xs ys _ IH|a b xs|xs ys zs _ IH1 _ IH2].
  - done.
  - by rewrite !sum_R_cons, IH.
  - rewrite !sum_R_cons. lra.
  - by rewrite IH1.
Qed.

Lemma descendant_sum_Permutation (squares : list R) (row row' : list nat) :
  row ≡ₚ row' → descendant_sum squares row = descendant_sum squares row'.
Proof.
  intros Hrow. unfold descendant_sum. apply sum_R_Permutation.
  by apply fmap_Permutation.
Qed.

Lemma shape1_Permutation_rows (bary_map bary_map' : list (list nat)) :
  Forall2 (≡ₚ) bary_map bary_map' →
  Numpy.shape1 bary_map' = Numpy.shape1 bary_map.
Proof.
  intros [|row row' rest rest' Hrow _]; [done|].
  simpl. symmetry. by apply Permutation_length.
Qed.

Lemma rows_of_one_length_Permutation (bary_map bary_map' : list (list nat)) :
  Forall2 (≡ₚ) bary_map bary_map' →
  Forall (λ row, length row = Numpy.shape1 bary_map) bary_map →
  Forall (λ row, length row = Numpy.shape1 bary_map') bary_map'.
Proof.
  intros Hperm Hshape. rewrite (shape1_Permutation_rows _ _ Hperm).
  clear -Hperm Hshape. generalize dependent (Numpy.shape1 bary_map).
  induction Hperm as [|row row' rest rest' Hrow _ IH]; intros k Hshape;
    [by constructor|].
  apply Forall_cons in Hshape as [Hk Hrest]. constructor.
  - rewrite <- Hk. symmetry. by apply Permutation_length.
  - by apply IH.
Qed.

Lemma indices_in_range_Permutation (bary_map bary_map' : list (list nat))
    (size : nat) :
  Forall2 (≡ₚ) bary_map bary_map' →
  Forall (Forall (λ i, i < size)%nat) bary_map →
  Forall (Forall (λ i, i < size)%nat) bary_map'.
Proof.
  induction 1 as [|row row' rest rest' Hrow _ IH]; intros Hin;
    [by constructor|].
  apply Forall_cons in Hin as [Hk Hrest]. constructor; [|by apply IH].
  by rewrite <- Hrow.
Qed.

Lemma running_totals_Permutation (bary_map bary_map' : list (list nat))
    (squares : list R) :
  Forall2 (≡ₚ) bary_map bary_map' →
  running_total squares 0 <$> bary_map
  = running_total squares 0 <$> bary_map'.
Proof.
  induction 1 as [|row row' rest rest' Hrow _ IH]; [done|].
  rewrite !fmap_cons, IH. f_equal.
  rewrite !running_total_descendant_sum.
  by apply descendant_sum_Permutation.
Qed.

Lemma sum_loop_descendant_order (bary_map bary_map' : list (list nat))
    (entity_count : nat) (squares : list R) :
  Forall (λ row, length row = Numpy.shape1 bary_map) bary_map →
  Forall2 (≡ₚ) bary_map bary_map' →
  sum_loop bary_map' squares (Numpy.zeros entity_count)
  = sum_loop bary_map squares (Numpy.zeros entity_count).
Proof.
  intros Hshape Hperm.
  pose proof (rows_of_one_length_Permutation _ _ Hperm Hshape) as Hshape'.
  pose proof (sum_loop_is_Some bary_map squares Hshape entity_count) as Hiff.
  pose proof (sum_loop_is_Some bary_map' squares Hshape' entity_count)
    as Hiff'.
  assert (Hsame :
    ((Numpy.shape1 bary_map = 0%nat ∨ (length bary_map <= entity_count)%nat)
     ∧ Forall (Forall (λ i, i < length squares)%nat) bary_map) →
    sum_loop bary_map' squares (Numpy.zeros entity_count)
    = sum_loop bary_map squares (Numpy.zeros entity_count)).
  { intros [[Hempty|Hcount] Hin].
    - change (for_each (outer_body bary_map' squares)
                (seq 0 (Numpy.shape0 bary_map')) (Numpy.zeros entity_count)
              = for_each (outer_body bary_map squares)
                  (seq 0 (Numpy.shape0 bary_map))
                  (Numpy.zeros entity_count)).
      rewrite !for_each_skip; [done| |].
      + intros m l. unfold outer_body. by rewrite Hempty.
      + intros m l. unfold outer_body.
        by rewrite (shape1_Permutation_rows _ _ Hperm), Hempty.
    - pose proof (indices_in_range_Permutation _ _ _ Hperm Hin) as Hin'.
      pose proof (Forall2_length _ _ _ Hperm) as Hlen.
      rewrite (sum_loop_Some bary_map squares Hshape Hin entity_count Hcount).
      rewrite (sum_loop_Some bary_map' squares Hshape' Hin' entity_count)
        by (by rewrite <- Hlen).
      f_equal. unfold partial_sums. rewrite !firstn_all, <- Hlen.
      f_equal. symmetry. by apply running_totals_Permutation. }
  destruct (sum_loop bary_map squares (Numpy.zeros entity_count))
    as [l|] eqn:Hl.
  - apply Hsame, Hiff. eauto.
  - destruct (sum_loop bary_map' squares (Numpy.zeros entity_count))
      as [l'|] eqn:Hl'; [|done].
    assert (Hsome : is_Some (Some l')) by eauto.
    apply Hiff' in Hsome as [Hrows Hin].
    assert (Hnone : is_Some (@None (list R))); [|by destruct Hnone].
    apply Hiff. split.
    + destruct Hrows as [Hempty|Hcount].
      * left. by rewrite <- (shape1_Permutation_rows _ _ Hperm).
      * right. by rewrite (Forall2_length _ _ _ Hperm).
    + eapply indices_in_range_Permutation; [|exact Hin].
      apply Forall2_flip. eapply Forall2_impl; [exact Hperm|].
      intros row row' Hrow. by symmetry.
Qed.

(** X10. In exact arithmetic the indicators do not depend on the order in
    which the map lists the descendants of an element: with the entries of
    each row rearranged, the aggregation gives the same result, or raises as
    before. *)
Theorem aggregate_descendant_order (bary_map bary_map' : list (list nat))
    (entity_count : nat) (squares : list R) :
  Forall (λ row, length row = Numpy.shape1 bary_map) bary_map →
  Forall2 (≡ₚ) bary_map bary_map' →
  aggregate bary_map' entity_count squares
  = aggregate bary_map entity_count squares.
Proof.
  intros Hshape Hperm. unfold aggregate.
  by rewrite (sum_loop_descendant_order _ _ _ _ Hshape Hperm).
Qed.

(** The descendants of the second element listed the other way round. *)
Lemma aggregate_descendant_order_witness :
  aggregate [[0; 1]; [3; 2]]%nat 2 [1; 3; 4; 5]
  = aggregate [[0; 1]; [2; 3]]%nat 2 [1; 3; 4; 5].
Proof.
  apply (aggregate_descendant_order
           [[0; 1]; [2; 3]]%nat [[0; 1]; [3; 2]]%nat 2 [1; 3; 4; 5]).
  - repeat constructor.
  - constructor; [done|]. constructor; [apply perm_swap | constructor].
Defined.

(** ** The whole notebook *)

Section NotebookMore.
Context {F : Type} `{Scalar F} (api : Bempp F).

(** X11. On a grid whose data is well formed, with a library whose
    [integrate] returns an array with an entry [0, 0], the notebook runs
    through; it reports one indicator per element of the grid, and the
    estimate it reports for the capacity is the square of the total it
    reports. *)
Theorem notebook_reports_on_well_formed_grid (grid : Grid api) :
  grid_data_well_formed api grid →
  (∀ f, is_Some (Numpy.get2 (integrate api f) 0 0)) →
  ∃ r,
    notebook api grid = Some r ∧
    length (reported_local_errors r) = entity_count api grid ∧
    reported_capacity_error r = f_pow (reported_total_error r) 2.
Proof.
  intros Hgrid Hint.
  destruct (notebook_returns api grid Hgrid Hint) as [r Hr].
  exists r. split; [exact Hr|].
  apply notebook_inv in Hr as (c11 & c19 & _ & Hc19 & ->).
  unfold cell19 in Hc19. apply bind_Some in Hc19 as (squares & _ & Hagg).
  apply aggregate_inv in Hagg
    as (sums & _ & Hlen & _ & Hlocal & _ & Hprinted & Hcap).
  simpl. split.
  - rewrite Hlocal. unfold Numpy.sqrt. by rewrite length_fmap.
  - by rewrite Hprinted.
Qed.

(** X12. With a library in which the product of two operators acts as the
    one after the other, and a solver whose [x] solves the system the
    notebook hands it, the capacity the notebook reports is minus the
    integral of a function [phi] that solves the equation with the
    single-layer operator alone and the callback's right-hand side. *)
Theorem reported_capacity_of_single_layer_solution (grid : Grid api)
    (r : Report) :
  let c9 := cell9 api grid in
  (∀ A B f,
     op_apply api (op_mul api A B) f = op_apply api A (op_apply api B f)) →
  op_apply api (lhs c9) (gmres api (lhs c9) (rhs_fun c9)).1.1 = rhs_fun c9 →
  notebook api grid = Some r →
  ∃ phi integral,
    op_apply api (slp c9) phi
    = GridFunction_fun api (range api (slp c9)) one_fun ∧
    Numpy.get2 (integrate api phi) 0 0 = Some integral ∧
    reported_capacity r = f_neg integral.
Proof.
  intros c9 Hmul Hsolved Hr.
  apply notebook_inv in Hr as (c11 & c19 & Hc11 & _ & ->).
  apply cell11_inv in Hc11 as (Hgmres & Hsol & integral & Hint & Hcap).
  fold c9 in Hgmres, Hsol. rewrite Hgmres in Hsolved. simpl in Hsolved.
  exists (sol_fun c11), integral. split; [|done].
  destruct (cell9_operators api grid) as (_ & _ & Hrhs & Hlhs).
  fold c9 in Hrhs, Hlhs. rewrite <- Hrhs, <- Hsolved, Hlhs, Hmul.
  by rewrite Hsol.
Qed.

End NotebookMore.

(** The unit square has well-formed grid data. *)
Lemma notebook_reports_on_well_formed_grid_witness :
  ∃ r,
    notebook Stub.api Stub.float_square = Some r ∧
    length (reported_local_errors r)
    = entity_count Stub.api Stub.float_square ∧
    reported_capacity_error r = f_pow (reported_total_error r) 2.
Proof.
  apply (notebook_reports_on_well_formed_grid Stub.api Stub.float_square).
  - repeat split.
    + vm_compute. exact (NoDup_seq 0 12).
    + vm_compute. repeat constructor.
    + vm_compute. repeat constructor.
    + vm_compute. lia.
    + vm_compute. repeat constructor.
    + vm_compute. repeat constructor.
  - intros f. simpl. eauto.
Defined.

(** The library with one degree of freedom: [V = 1], [W = 0], the rank-one
    operator is 1, and the solver divides the right-hand side by the
    system. *)
Lemma reported_capacity_of_single_layer_solution_witness :
  ∃ r,
    notebook one_dof tt = Some r ∧
    ∃ phi integral,
      op_apply one_dof (slp (cell9 one_dof tt)) phi
      = GridFunction_fun one_dof (range one_dof (slp (cell9 one_dof tt)))
          one_fun ∧
      Numpy.get2 (integrate one_dof phi) 0 0 = Some integral ∧
      reported_capacity r = f_neg integral.
Proof.
  assert (Hr : ∃ r, notebook one_dof tt = Some r).
  { eexists. reflexivity. }
  destruct Hr as [r Hr]. exists r. split; [exact Hr|].
  apply (reported_capacity_of_single_layer_solution one_dof tt r).
  - intros A B f. simpl. ring.
  - simpl. field; lra.
  - exact Hr.
Defined.

(** ** The reported estimate, from the elements of the refinement *)

Section ReportedEstimate.
Context (api : Bempp R).

(** Cell 19 on a grid with well-formed data: what the first loop leaves in
    the array of squares, entry by entry, and the aggregation it is handed
    to. *)
Lemma cell19_inv (grid : Grid api) (f : GridFunction api) (c19 : Cell19) :
  grid_data_well_formed api grid →
  cell19 api grid (cell13 api grid) f = Some c19 →
  let bary_grid := barycentric_grid api grid in
  let squares := local_errors_squared_bary c19 in
  length squares = entity_count api bary_grid ∧
  Forall (λ a, 0 <= a) squares ∧
  (∀ T, T ∈ entity_iterator api bary_grid →
     ∃ diam, diameter api T = Some diam ∧
       squares !! entity_index api bary_grid T
       = Some (diam * surface_grad_norm api f T ^ 2)) ∧
  (∀ i, i ∉ entity_index api bary_grid <$> entity_iterator api bary_grid →
     (i < entity_count api bary_grid)%nat → squares !! i = Some 0) ∧
  aggregate (barycentric_descendents_map api grid) (entity_count api grid)
    squares = Some c19.
Proof.
  intros (Hdup & Hidx & Hcorners & Hrows & Hshape & Hin) Hc19.
  unfold cell19 in Hc19.
  apply bind_Some in Hc19 as (squares & Hloop & Hagg).
  pose proof (bary_loop_nonneg _ _ _ _ Hdup Hidx Hcorners Hloop) as Hnonneg.
  destruct (bary_loop_from api (barycentric_grid api grid) f
              (entity_iterator api (barycentric_grid api grid))
              (Numpy.zeros (entity_count api (barycentric_grid api grid))))
    as (squares' & Hrun' & Hlen & Hval & Hframe).
  { exact Hdup. }
  { unfold Numpy.zeros. by rewrite length_replicate. }
  { eapply Forall_impl; [exact Hcorners|]. intros T. apply diameter_is_Some. }
  unfold bary_loop in Hloop. unfold bary_body in Hrun'.
  rewrite Hloop in Hrun'. injection Hrun' as <-.
  unfold Numpy.zeros in Hlen. rewrite length_replicate in Hlen.
  pose proof Hagg as Hsq. apply aggregate_inv in Hsq as (_ & _ & _ & Hsq & _).
  unfold cell13 in Hagg. simpl. rewrite Hsq.
  split; [exact Hlen|]. split; [exact Hnonneg|]. split; [|split].
  - intros T HT. destruct (Hval T HT) as (diam & Hdiam & Hentry).
    exists diam. split; [exact Hdiam|].
    rewrite Hentry; f_equal; simpl; ring.
  - intros i Hi Hlt. rewrite (Hframe i Hi). unfold Numpy.zeros.
    by apply lookup_replicate_2.
  - exact Hagg.
Qed.

(** X13. On a grid with well-formed data, the estimate the notebook reports
    for the capacity is the sum, over all the entries of the descendant map,
    of the squared indicators the first loop stored: the diameter times the
    squared surface gradient norm for the elements of the refinement, and
    zero for an index no element has. *)
Theorem reported_capacity_error_sum (grid : Grid api) (r : Report) :
  grid_data_well_formed api grid →
  notebook api grid = Some r →
  let bary_grid := barycentric_grid api grid in
  ∃ c11 squares,
    cell11 api (cell9 api grid) = Some c11 ∧
    length squares = entity_count api bary_grid ∧
    (∀ T, T ∈ entity_iterator api bary_grid →
       ∃ diam, diameter api T = Some diam ∧
         squares !! entity_index api bary_grid T
         = Some (diam * surface_grad_norm api
                   (base_slp_times_sol api (cell9 api grid) (sol_fun c11)) T
                   ^ 2)) ∧
    (∀ i, i ∉ entity_index api bary_grid <$> entity_iterator api bary_grid →
       (i < entity_count api bary_grid)%nat → squares !! i = Some 0) ∧
    reported_capacity_error r
    = sum_R (descendant_sum squares <$> barycentric_descendents_map api grid).
Proof.
  intros Hgrid Hr bary_grid. subst bary_grid.
  apply notebook_inv in Hr as (c11 & c19 & Hc11 & Hc19 & ->).
  destruct (cell19_inv grid _ c19 Hgrid Hc19)
    as (Hlen & Hnonneg & Hval & Hframe & Hagg).
  destruct Hgrid as (_ & _ & _ & Hrows & Hshape & Hin).
  exists c11, (local_errors_squared_bary c19).
  split; [exact Hc11|]. split; [exact Hlen|].
  split; [exact Hval|]. split; [exact Hframe|]. simpl.
  apply (capacity_error_sum _ (entity_count api grid)); try done.
  by rewrite Hlen.
Qed.

(** X14. On a grid with well-formed data, the estimate the notebook reports
    for the capacity is zero exactly when every element of the refinement
    that the descendant map lists has diameter zero or a surface gradient
    norm, as the library returns it, of zero. *)
Theorem reported_capacity_error_zero_iff (grid : Grid api) (r : Report) :
  grid_data_well_formed api grid →
  notebook api grid = Some r →
  let bary_grid := barycentric_grid api grid in
  ∃ c11,
    cell11 api (cell9 api grid) = Some c11 ∧
    (reported_capacity_error r = 0 ↔
     ∀ T m n,
       T ∈ entity_iterator api bary_grid →
       Numpy.get2 (barycentric_descendents_map api grid) m n
       = Some (entity_index api bary_grid T) →
       diameter api T = Some 0 ∨
       surface_grad_norm api
         (base_slp_times_sol api (cell9 api grid) (sol_fun c11)) T = 0).
Proof.
  intros Hgrid Hr bary_grid. subst bary_grid.
  apply notebook_inv in Hr as (c11 & c19 & Hc11 & Hc19 & ->).
  destruct (cell19_inv grid _ c19 Hgrid Hc19)
    as (Hlen & Hnonneg & Hval & Hframe & Hagg).
  destruct Hgrid as (_ & _ & _ & Hrows & Hshape & Hin).
  exists c11. split; [exact Hc11|]. simpl.
  assert (Hin' : Forall (Forall (λ i, i < length
                                        (local_errors_squared_bary c19))%nat)
                   (barycentric_descendents_map api grid)).
  { by rewrite Hlen. }
  rewrite (capacity_error_zero_iff _ _ _ _ Hrows Hshape Hin' Hnonneg Hagg).
  split.
  - intros Hzero T m n HT Hlisted.
    destruct (Hval T HT) as (diam & Hdiam & Hentry).
    rewrite (Hzero m n _ Hlisted) in Hentry. injection Hentry as Hentry.
    symmetry in Hentry.
    apply Rmult_integral in Hentry as [->|Hg]; [by left | right].
    simpl in Hg. apply Rmult_integral in Hg as [Hg|Hg]; [done|]. lra.
  - intros Hzero m n i Hlisted.
    assert (Hlt : (i < entity_count api (barycentric_grid api grid))%nat).
    { unfold Numpy.get2 in Hlisted.
      apply bind_Some in Hlisted as (row & Hrow & Hi).
      pose proof (proj1 (Forall_lookup _ _) Hin m row Hrow) as Hrow_in.
      exact (proj1 (Forall_lookup _ _) Hrow_in n i Hi). }
    destruct (decide (i ∈ entity_index api (barycentric_grid api grid)
                            <$> entity_iterator api
                                  (barycentric_grid api grid))) as [Hi|Hi].
    + apply list_elem_of_fmap in Hi as (T & -> & HT).
      destruct (Hval T HT) as (diam & Hdiam & Hentry).
      rewrite Hentry. f_equal.
      destruct (Hzero T m n HT Hlisted) as [Hd|Hg].
      * rewrite Hdiam in Hd. injection Hd as ->. ring.
      * rewrite Hg. ring.
    + by apply Hframe.
Qed.

End ReportedEstimate.

(** The unit square with the stand-in library. *)
Lemma reported_capacity_error_sum_witness :
  let api := Stub.api (F := R) in
  let grid := Stub.real_square in
  let bary_grid := barycentric_grid api grid in
  ∃ r,
    notebook api grid = Some r ∧
    ∃ c11 squares,
      cell11 api (cell9 api grid) = Some c11 ∧
      length squares = entity_count api bary_grid ∧
      (∀ T, T ∈ entity_iterator api bary_grid →
         ∃ diam, diameter api T = Some diam ∧
           squares !! entity_index api bary_grid T
           = Some (diam * surface_grad_norm api
                     (base_slp_times_sol api (cell9 api grid) (sol_fun c11))
                     T ^ 2)) ∧
      (∀ i, i ∉ entity_index api bary_grid <$> entity_iterator api bary_grid →
         (i < entity_count api bary_grid)%nat → squares !! i = Some 0) ∧
      reported_capacity_error r
      = sum_R (descendant_sum squares
                 <$> barycentric_descendents_map api grid).
Proof.
  intros api grid bary_grid.
  assert (Hgrid : grid_data_well_formed api grid).
  { repeat split.
    - vm_compute. exact (NoDup_seq 0 12).
    - vm_compute. repeat constructor.
    - vm_compute. repeat constructor.
    - vm_compute. lia.
    - vm_compute. repeat constructor.
    - vm_compute. repeat constructor. }
  destruct (notebook_returns api grid Hgrid) as [r Hr].
  { intros f. simpl. eauto. }
  exists r. split; [exact Hr|].
  exact (reported_capacity_error_sum api grid r Hgrid Hr).
Defined.

(** The same grid. *)
Lemma reported_capacity_error_zero_iff_witness :
  let api := Stub.api (F := R) in
  let grid := Stub.real_square in
  let bary_grid := barycentric_grid api grid in
  ∃ r,
    notebook api grid = Some r ∧
    ∃ c11,
      cell11 api (cell9 api grid) = Some c11 ∧
      (reported_capacity_error r = 0 ↔
       ∀ T m n,
         T ∈ entity_iterator api bary_grid →
         Numpy.get2 (barycentric_descendents_map api grid) m n
         = Some (entity_index api bary_grid T) →
         diameter api T = Some 0 ∨
         surface_grad_norm api
           (base_slp_times_sol api (cell9 api grid) (sol_fun c11)) T = 0).
Proof.
  intros api grid bary_grid.
  assert (Hgrid : grid_data_well_formed api grid).
  { repeat split.
    - vm_compute. exact (NoDup_seq 0 12).
    - vm_compute. repeat constructor.
    - vm_compute. repeat constructor.
    - vm_compute. lia.
    - vm_compute. repeat constructor.
    - vm_compute. repeat constructor. }
  destruct (notebook_returns api grid Hgrid) as [r Hr].
  { intros f. simpl. eauto. }
  exists r. split; [exact Hr|].
  exact (reported_capacity_error_zero_iff api grid r Hgrid Hr).
Defined.

(** ** Cell 21: the indicators in the numbering of the function space *)

Lemma position_lt (n : nat) (i : Z) (p : nat) :
  Numpy.position n i = Some p → (p < n)%nat.
Proof.
  unfold Numpy.position. intros Hp.
  destruct (decide (0 ≤ i < Z.of_nat n)%Z); [injection Hp as <-; lia|].
  destruct (decide (- Z.of_nat n ≤ i < 0)%Z); [injection Hp as <-; lia|].
  done.
Qed.

Lemma position_is_Some (n : nat) (i : Z) :
  is_Some (Numpy.position n i) ↔ (- Z.of_nat n ≤ i < Z.of_nat n)%Z.
Proof.
  unfold Numpy.position.
  destruct (decide (0 ≤ i < Z.of_nat n)%Z) as [Hi|Hi].
  - split; [lia | eauto].
  - destruct (decide (- Z.of_nat n ≤ i < 0)%Z) as [Hneg|Hneg].
    + split; [lia | eauto].
    + split; [by intros [? ?] | lia].
Qed.

Lemma list_as_fmap_seq {A} (d : A) (l : list A) :
  l = (λ i, default d (l !! i)) <$> seq 0 (length l).
Proof.
  apply list_eq. intros i. rewrite list_lookup_fmap.
  destruct (decide (i < length l)%nat) as [Hi|Hi].
  - rewrite lookup_seq_lt by done. simpl.
    destruct (lookup_lt_is_Some_2 l i Hi) as [a Ha]. by rewrite Ha.
  - rewrite lookup_seq_ge by lia. simpl. apply lookup_ge_None. lia.
Qed.

Lemma NoDup_bounded_Permutation (l : list nat) (n : nat) :
  NoDup l → Forall (λ i, i < n)%nat l → length l = n → l ≡ₚ seq 0 n.
Proof.
  intros Hdup Hlt Hlen. apply submseteq_length_Permutation.
  - apply NoDup_submseteq; [done|]. intros i Hi. apply elem_of_seq.
    pose proof (proj1 (Forall_forall _ _) Hlt i Hi). simpl in *. lia.
  - rewrite length_seq. lia.
Qed.

Section Cell21Proofs.
Context {F : Type} `{Scalar F} (api : Bempp F) (spaces : BemppSpaces api).
Variable grid : Grid api.
Variable space : Space api.
Variable local_errors : list F.

Abbreviation body := (resort_body api spaces grid space local_errors).

Lemma resort_body_inv (T : Entity api) (sorted sorted' : list F) :
  body T sorted = Some sorted' →
  ∃ p v,
    dof_position api spaces space (length sorted) T = Some p ∧
    (p < length sorted)%nat ∧
    local_errors !! entity_index api grid T = Some v ∧
    sorted' = <[p := v]> sorted.
Proof.
  unfold resort_body. intros Hbody.
  apply bind_Some in Hbody as (g & Hg & Hbody).
  apply bind_Some in Hbody as (v & Hv & Hbody).
  unfold Numpy.set_item in Hbody.
  apply bind_Some in Hbody as (p & Hp & Hbody). injection Hbody as <-.
  exists p, v. unfold dof_position. rewrite Hg. simpl.
  split; [exact Hp|]. split; [by eapply position_lt|]. done.
Qed.

Lemma resort_body_Some (T : Entity api) (sorted : list F) (p : nat) (v : F) :
  dof_position api spaces space (length sorted) T = Some p →
  local_errors !! entity_index api grid T = Some v →
  body T sorted = Some (<[p := v]> sorted).
Proof.
  unfold dof_position, resort_body. intros Hp Hv.
  apply bind_Some in Hp as (g & Hg & Hp).
  rewrite Hg. simpl. unfold Numpy.get. rewrite Hv. simpl.
  unfold Numpy.set_item. by rewrite Hp.
Qed.

Lemma resort_is_Some_from (elements : list (Entity api)) (sorted : list F) :
  is_Some (for_each body elements sorted) ↔
  Forall (λ T, (entity_index api grid T < length local_errors)%nat ∧
               is_Some (dof_position api spaces space (length sorted) T))
    elements.
Proof.
  revert sorted. induction elements as [|T rest IH]; intros sorted.
  - simpl. split; [by constructor | eauto].
  - cbn [for_each]. rewrite Forall_cons. split.
    + intros [sorted' Hrun].
      apply bind_Some in Hrun as (s1 & Hbody & Hrest).
      apply resort_body_inv in Hbody as (p & v & Hp & Hlt & Hv & ->).
      split.
      * split; [by eapply lookup_lt_Some | eauto].
      * assert (Hsome : is_Some (for_each body rest
                                   (<[p := v]> sorted))) by eauto.
        apply IH in Hsome. eapply Forall_impl; [exact Hsome|].
        intros T'. simpl. by rewrite length_insert.
    + intros [[Hlt [p Hp]] Hrest].
      destruct (lookup_lt_is_Some_2 local_errors _ Hlt) as [v Hv].
      rewrite (resort_body_Some T sorted p v Hp Hv). simpl. apply IH.
      eapply Forall_impl; [exact Hrest|].
      intros T'. simpl. by rewrite length_insert.
Qed.

Lemma resort_last_from (elements : list (Entity api))
    (sorted sorted' : list F) :
  for_each body elements sorted = Some sorted' →
  length sorted' = length sorted ∧
  ∀ p, sorted' !! p
       = match last (filter (λ T, dof_position api spaces space
                                    (length sorted) T = Some p)
                       elements) with
         | Some T => local_errors !! entity_index api grid T
         | None => sorted !! p
         end.
Proof.
  revert sorted. induction elements as [|T rest IH]; intros sorted Hrun.
  - injection Hrun as <-. done.
  - cbn [for_each] in Hrun.
    apply bind_Some in Hrun as (s1 & Hbody & Hrest).
    apply resort_body_inv in Hbody as (p & v & Hp & Hlt & Hv & ->).
    apply IH in Hrest as [Hlen Hval]. rewrite length_insert in Hlen, Hval.
    split; [exact Hlen|].
    intros q. rewrite (Hval q), last_filter_cons.
    destruct (last (filter _ rest)) as [T'|]; [done|].
    destruct (decide (dof_position api spaces space (length sorted) T
                      = Some q)) as [Hq|Hq].
    + rewrite Hp in Hq. injection Hq as <-. rewrite Hv.
      by apply list_lookup_insert_eq.
    + apply list_lookup_insert_ne. intros <-. by apply Hq.
Qed.

(** With distinct positions, the entry at the position of each element is
    that element's entry of [local_errors]. *)
Lemma resort_distinct_from (elements : list (Entity api))
    (sorted sorted' : list F) :
  for_each body elements sorted = Some sorted' →
  NoDup (dof_position api spaces space (length sorted) <$> elements) →
  ∀ T, T ∈ elements →
    ∃ p, dof_position api spaces space (length sorted) T = Some p ∧
         (p < length sorted)%nat ∧
         (entity_index api grid T < length local_errors)%nat ∧
         sorted' !! p = local_errors !! entity_index api grid T.
Proof.
  revert sorted. induction elements as [|T rest IH];
    intros sorted Hrun Hdup T' HT'.
  - by apply elem_of_nil in HT'.
  - cbn [for_each] in Hrun.
    apply bind_Some in Hrun as (s1 & Hbody & Hrest).
    apply resort_body_inv in Hbody as (p & v & Hp & Hlt & Hv & ->).
    rewrite fmap_cons in Hdup. apply NoDup_cons in Hdup as [Hfresh Hdup].
    apply elem_of_cons in HT' as [->|HT'].
    + exists p. split; [exact Hp|]. split; [exact Hlt|].
      split; [by eapply lookup_lt_Some|].
      destruct (resort_last_from rest _ _ Hrest) as [_ Hval].
      rewrite (Hval p). rewrite length_insert.
      destruct (last (filter _ rest)) as [T'|] eqn:Hlast.
      * exfalso. apply Hfresh. apply last_Some_elem_of in Hlast.
        apply list_elem_of_filter in Hlast as [HpT' HT'].
        rewrite Hp, <- HpT'. by apply list_elem_of_fmap_2.
      * rewrite Hv. by apply list_lookup_insert_eq.
    + destruct (IH (<[p := v]> sorted) Hrest) with (T := T')
        as (q & Hq & Hqlt & Hidx & Hentry); try done.
      { by rewrite length_insert. }
      rewrite length_insert in Hq, Hqlt. eauto.
Qed.

Lemma resort_loop_body (sorted : list F) :
  resort_loop api spaces grid space local_errors sorted
  = for_each body (entity_iterator api grid) sorted.
Proof. reflexivity. Qed.

Lemma zeros_like_length : 
  length (Numpy.zeros_like local_errors) = length local_errors.
Proof. unfold Numpy.zeros_like, Numpy.zeros. by rewrite length_replicate. Qed.

Lemma resort_Permutation (sorted : list F) :
  resort_loop api spaces grid space local_errors
    (Numpy.zeros_like local_errors) = Some sorted →
  NoDup (entity_index api grid <$> entity_iterator api grid) →
  NoDup (dof_position api spaces space (length local_errors)
           <$> entity_iterator api grid) →
  length (entity_iterator api grid) = length local_errors →
  sorted ≡ₚ local_errors.
Proof.
  rewrite resort_loop_body. intros Hrun Hdup_idx Hdup_pos Hcount.
  pose proof (resort_last_from _ _ _ Hrun) as [Hlen _].
  rewrite zeros_like_length in Hlen.
  pose proof (resort_distinct_from _ _ _ Hrun) as Hval.
  rewrite zeros_like_length in Hval. specialize (Hval Hdup_pos).
  set (elements := entity_iterator api grid) in *.
  set (n := length local_errors) in *.
  set (pos := λ T, default 0%nat (dof_position api spaces space n T)).
  assert (Hpos : pos <$> elements ≡ₚ seq 0 n).
  { apply NoDup_bounded_Permutation.
    - unfold pos.
      rewrite (list_fmap_compose (dof_position api spaces space n)
                 (default 0%nat)).
      apply NoDup_fmap_2_strong; [|exact Hdup_pos].
      intros a b Ha Hb Hab.
      apply list_elem_of_fmap in Ha as (Ta & -> & HTa).
      apply list_elem_of_fmap in Hb as (Tb & -> & HTb).
      destruct (Hval Ta HTa) as (pa & Hpa & _).
      destruct (Hval Tb HTb) as (pb & Hpb & _).
      rewrite Hpa, Hpb in *. simpl in Hab. by rewrite Hab.
    - apply Forall_fmap, Forall_forall. intros T HT. simpl.
      destruct (Hval T HT) as (p & Hp & Hlt & _). unfold pos.
      by rewrite Hp.
    - by rewrite length_fmap. }
  assert (Hidx : entity_index api grid <$> elements ≡ₚ seq 0 n).
  { apply NoDup_bounded_Permutation; [exact Hdup_idx| |by rewrite length_fmap].
    apply Forall_fmap, Forall_forall. intros T HT. simpl.
    by destruct (Hval T HT) as (p & _ & _ & Hlt & _). }
  transitivity ((λ i, default f_zero (local_errors !! i)) <$> seq 0 n);
    [|subst n; by rewrite <- (list_as_fmap_seq f_zero local_errors)].
  rewrite (list_as_fmap_seq f_zero sorted), Hlen.
  rewrite <- Hpos at 1. rewrite <- Hidx.
  rewrite <- !list_fmap_compose.
  match goal with |- ?a ≡ₚ ?b => assert (Heq : a = b); [|by rewrite Heq] end.
  apply list_fmap_ext. intros k T HT. simpl.
  destruct (Hval T) as (p & Hp & _ & _ & Hentry).
  { by eapply list_elem_of_lookup_2. }
  unfold pos. rewrite Hp. simpl. by rewrite Hentry.
Qed.

End Cell21Proofs.

Section Cell21Cell.
Context {F : Type} `{Scalar F} (api : Bempp F) (spaces : BemppSpaces api).

Lemma cell21_inv (grid : Grid api) (local_errors : list F)
    (c21 : Cell21 api) :
  cell21 api spaces grid local_errors = Some c21 →
  const_space c21 = function_space spaces grid ∧
  for_each
    (resort_body api spaces grid (function_space spaces grid) local_errors)
    (entity_iterator api grid) (Numpy.zeros_like local_errors)
  = Some (sorted_local_errors c21) ∧
  plotted c21
  = GridFunction_coefficients spaces (const_space c21)
      (sorted_local_errors c21).
Proof.
  unfold cell21. intros Hc21.
  apply bind_Some in Hc21 as (sorted & Hrun & Hc21). injection Hc21 as <-.
  done.
Qed.

Lemma cell21_is_Some (grid : Grid api) (local_errors : list F) :
  is_Some (cell21 api spaces grid local_errors) ↔
  Forall (λ T, (entity_index api grid T < length local_errors)%nat ∧
               is_Some (dof_position api spaces (function_space spaces grid)
                          (length local_errors) T))
    (entity_iterator api grid).
Proof.
  pose proof (resort_is_Some_from api spaces grid
                (function_space spaces grid) local_errors
                (entity_iterator api grid) (Numpy.zeros_like local_errors))
    as Hiff.
  rewrite zeros_like_length in Hiff. rewrite <- Hiff. unfold cell21.
  rewrite resort_loop_body.
  destruct (for_each _ _ _); simpl; [split; eauto | done].
Qed.

(** X15. Cell 21 runs through exactly when every element of the grid has an
    index inside [local_errors] and a first global dof [g] with
    [-n <= g < n], where [n] is the length of [local_errors] (a negative [g]
    counts from the end of the array); otherwise the loop raises an
    IndexError. *)
Theorem cell21_returns_iff (grid : Grid api) (local_errors : list F) :
  is_Some (cell21 api spaces grid local_errors) ↔
  Forall (λ T, (entity_index api grid T < length local_errors)%nat ∧
               ∃ g, get_global_dofs spaces (function_space spaces grid) T
                      !! 0%nat = Some g ∧
                    (- Z.of_nat (length local_errors) ≤ g
                     < Z.of_nat (length local_errors))%Z)
    (entity_iterator api grid).
Proof.
  rewrite cell21_is_Some. apply Forall_proper; [|done].
  intros T. unfold dof_position. split.
  - intros [Hlt [p Hp]]. split; [exact Hlt|].
    apply bind_Some in Hp as (g & Hg & Hp). exists g. split; [exact Hg|].
    apply position_is_Some. eauto.
  - intros [Hlt (g & Hg & Hrange)]. split; [exact Hlt|].
    rewrite Hg. simpl. by apply position_is_Some.
Qed.

(** X16. When cell 21 has run, the array it plots has the length of
    [local_errors]; its entry at a position that no element's dof gives is
    zero, and its entry at a position that the dofs of several elements give
    is the indicator of the last of them in the order of the iteration. *)
Theorem cell21_last_write (grid : Grid api) (local_errors : list F)
    (c21 : Cell21 api) :
  cell21 api spaces grid local_errors = Some c21 →
  length (sorted_local_errors c21) = length local_errors ∧
  ∀ p, sorted_local_errors c21 !! p
       = match last (filter (λ T, dof_position api spaces
                                    (function_space spaces grid)
                                    (length local_errors) T = Some p)
                       (entity_iterator api grid)) with
         | Some T => local_errors !! entity_index api grid T
         | None => if decide (p < length local_errors)%nat
                   then Some f_zero else None
         end.
Proof.
  intros Hc21. apply cell21_inv in Hc21 as (_ & Hrun & _).
  apply resort_last_from in Hrun as [Hlen Hval].
  rewrite zeros_like_length in Hlen, Hval. split; [exact Hlen|].
  intros p. rewrite (Hval p).
  destruct (last (filter _ _)); [done|].
  unfold Numpy.zeros_like, Numpy.zeros.
  destruct (decide (p < length local_errors)%nat).
  - by apply lookup_replicate_2.
  - apply lookup_ge_None. rewrite length_replicate. lia.
Qed.

(** X17. When the index set numbers the elements of the grid apart, their
    first global dofs give positions that are apart as well, and
    [local_errors] has one entry per element, cell 21 only reorders: the
    coefficients of the function it plots are a rearrangement of
    [local_errors]. *)
Theorem cell21_reorders (grid : Grid api) (local_errors : list F)
    (c21 : Cell21 api) :
  cell21 api spaces grid local_errors = Some c21 →
  NoDup (entity_index api grid <$> entity_iterator api grid) →
  NoDup (dof_position api spaces (function_space spaces grid)
           (length local_errors) <$> entity_iterator api grid) →
  length (entity_iterator api grid) = length local_errors →
  sorted_local_errors c21 ≡ₚ local_errors ∧
  plotted c21
  = GridFunction_coefficients spaces (function_space spaces grid)
      (sorted_local_errors c21).
Proof.
  intros Hc21 Hdup_idx Hdup_pos Hcount.
  apply cell21_inv in Hc21 as (Hspace & Hrun & Hplot).
  split; [|by rewrite Hplot, Hspace].
  by apply (resort_Permutation api spaces grid (function_space spaces grid)).
Qed.

End Cell21Cell.

(** The unit square, with the dofs numbered backwards. *)
Lemma cell21_last_write_witness :
  ∃ c21,
    cell21 Stub.api reversed_dofs Stub.float_square [2; 3]%float = Some c21 ∧
    length (sorted_local_errors c21) = length [2; 3]%float ∧
    ∀ p, sorted_local_errors c21 !! p
         = match last (filter (λ T, dof_position Stub.api reversed_dofs
                                      (function_space reversed_dofs
                                         Stub.float_square)
                                      (length [2; 3]%float) T = Some p)
                         (entity_iterator Stub.api Stub.float_square)) with
           | Some T =>
               [2; 3]%float !! entity_index Stub.api Stub.float_square T
           | None => if decide (p < length [2; 3]%float)%nat
                     then Some f_zero else None
           end.
Proof.
  assert (Hrun : ∃ c21,
            cell21 Stub.api reversed_dofs Stub.float_square [2; 3]%float
            = Some c21).
  { vm_compute. eauto. }
  destruct Hrun as [c21 Hrun]. exists c21. split; [exact Hrun|].
  exact (cell21_last_write Stub.api reversed_dofs Stub.float_square
           [2; 3]%float c21 Hrun).
Defined.

(** The same grid and numbering. *)
Lemma cell21_reorders_witness :
  ∃ c21,
    cell21 Stub.api reversed_dofs Stub.float_square [2; 3]%float = Some c21 ∧
    sorted_local_errors c21 ≡ₚ [2; 3]%float ∧
    plotted c21
    = GridFunction_coefficients reversed_dofs
        (function_space reversed_dofs Stub.float_square)
        (sorted_local_errors c21).
Proof.
  assert (Hrun : ∃ c21,
            cell21 Stub.api reversed_dofs Stub.float_square [2; 3]%float
            = Some c21).
  { vm_compute. eauto. }
  destruct Hrun as [c21 Hrun]. exists c21. split; [exact Hrun|].
  apply (cell21_reorders Stub.api reversed_dofs Stub.float_square
           [2; 3]%float c21 Hrun).
  - vm_compute. exact (NoDup_seq 0 2).
  - apply (bool_decide_unpack _). vm_compute. exact I.
  - reflexivity.
Defined.

(** ** Cells 19 and 21 together *)

Lemma euclidean_norm_Permutation (u v : list R) :
  u ≡ₚ v → euclidean_norm u = euclidean_norm v.
Proof.
  intros Huv. unfold euclidean_norm. f_equal.
  apply sum_R_Permutation. by apply fmap_Permutation.
Qed.

Lemma notebook_local_errors {F} `{Scalar F} (api : Bempp F)
    (grid : Grid api) (r : Report) :
  notebook api grid = Some r →
  length (reported_local_errors r) = entity_count api grid ∧
  reported_total_error r = Numpy.linalg_norm (reported_local_errors r).
Proof.
  intros Hr. apply notebook_inv in Hr as (c11 & c19 & _ & Hc19 & ->).
  unfold cell19 in Hc19. apply bind_Some in Hc19 as (squares & _ & Hagg).
  apply aggregate_inv in Hagg
    as (sums & _ & Hlen & _ & Hlocal & Htotal & Hprinted & _).
  simpl. split.
  - rewrite Hlocal. unfold Numpy.sqrt. by rewrite length_fmap.
  - by rewrite Hprinted, Htotal.
Qed.

(** X18. Cell 21 after the rest of the notebook, in exact arithmetic: when
    the grid lists as many elements as it counts, its index set numbers them
    apart and their first global dofs give positions that are apart, the
    coefficients that cell 21 plots have the Euclidean norm that cell 19
    printed as the total error. *)
Theorem plotted_norm_is_total_error (api : Bempp R)
    (spaces : BemppSpaces api) (grid : Grid api) (r : Report)
    (c21 : Cell21 api) :
  notebook api grid = Some r →
  cell21 api spaces grid (reported_local_errors r) = Some c21 →
  length (entity_iterator api grid) = entity_count api grid →
  NoDup (entity_index api grid <$> entity_iterator api grid) →
  NoDup (dof_position api spaces (function_space spaces grid)
           (entity_count api grid) <$> entity_iterator api grid) →
  Numpy.linalg_norm (sorted_local_errors c21) = reported_total_error r.
Proof.
  intros Hr Hc21 Hcount Hdup_idx Hdup_pos.
  destruct (notebook_local_errors api grid r Hr) as [Hlen ->].
  apply cell21_inv in Hc21 as (_ & Hrun & _).
  rewrite !linalg_norm_euclidean. apply euclidean_norm_Permutation.
  apply (resort_Permutation api spaces grid (function_space spaces grid));
    by rewrite ?Hlen.
Qed.

(** The unit square with the stand-in library and the dofs numbered
    backwards. *)
Lemma plotted_norm_is_total_error_witness :
  ∃ r c21,
    notebook Stub.api Stub.real_square = Some r ∧
    cell21 Stub.api reversed_dofs Stub.real_square (reported_local_errors r)
    = Some c21 ∧
    Numpy.linalg_norm (sorted_local_errors c21) = reported_total_error r.
Proof.
  assert (Hgrid : grid_data_well_formed Stub.api Stub.real_square).
  { repeat split.
    - vm_compute. exact (NoDup_seq 0 12).
    - vm_compute. repeat constructor.
    - vm_compute. repeat constructor.
    - vm_compute. lia.
    - vm_compute. repeat constructor.
    - vm_compute. repeat constructor. }
  destruct (notebook_returns Stub.api Stub.real_square Hgrid) as [r Hr].
  { intros f. simpl. eauto. }
  destruct (notebook_local_errors Stub.api Stub.real_square r Hr)
    as [Hlen _].
  assert (Hc21 : is_Some (cell21 Stub.api reversed_dofs Stub.real_square
                            (reported_local_errors r))).
  { apply cell21_is_Some. rewrite Hlen. vm_compute. repeat constructor; eauto. }
  destruct Hc21 as [c21 Hc21]. exists r, c21.
  split; [exact Hr|]. split; [exact Hc21|].
  apply (plotted_norm_is_total_error Stub.api reversed_dofs
           Stub.real_square r c21 Hr Hc21).
  - reflexivity.
  - vm_compute. exact (NoDup_seq 0 2).
  - apply (bool_decide_unpack _). vm_compute. exact I.
Defined.
